(** * Pinned-models tree utilities and the PDF text worker

    A shallow embedding of [src/lib/utils/pinned-models.ts] and of the PDF
    text-extraction worker, with the properties their specification states.

    The tree utilities are embedded twice:
    - [PinnedModels]: under the TypeScript types ([PinnedItem] is a string
      or a category whose [children] is an array of items);
    - [Runtime]: over untyped JavaScript values, where an item may be
      anything the settings JSON holds and the functions may throw.
    [Runtime.encode] relates the two, and the agreement lemmas show that
    the runtime functions compute, on the image of a typed tree, what the
    typed functions compute. *)

From Stdlib Require Import List String Ascii ZArith Arith Bool Lia.
Import ListNotations.

#[local] Set Warnings "-register-all".
#[local] Open Scope string_scope.
#[local] Open Scope list_scope.

(* ================================================================== *)
(** * Part I: definitions                                              *)
(* ================================================================== *)

(** ** The typed tree model *)

Module PinnedModels.

(** [export type PinnedItem = string | PinnedCategory], with
    [interface PinnedCategory { name: string; children: PinnedItem[] }]. *)
Inductive PinnedItem : Type :=
| Leaf (id : string)
| Category (name : string) (children : list PinnedItem).

(** The body of the [for (const item of items)] loop of
    [getPinnedModelIds], as a transformer of the accumulator [ids]:
    [ids.push(item)] for a string, and
    [ids.push(...getPinnedModelIds(item.children))] for a category
    (whose [children] array is always truthy).  The inner [fold_left]
    is the recursive call, run on a fresh accumulator. *)
Fixpoint pushIds (item : PinnedItem) (ids : list string) : list string :=
  match item with
  | Leaf s => ids ++ [s]
  | Category _ children =>
      ids ++ fold_left (fun acc child => pushIds child acc) children []
  end.

(** [const ids = []; for (const item of items) { ... } return ids;] *)
Definition getPinnedModelIds (items : list PinnedItem) : list string :=
  fold_left (fun ids item => pushIds item ids) items [].

(** The loop body of [removeModelFromTree] on the accumulator [result]. *)
Fixpoint pushKept (modelId : string) (item : PinnedItem)
         (result : list PinnedItem) : list PinnedItem :=
  match item with
  | Leaf s =>
      if negb (String.eqb s modelId) then result ++ [Leaf s] else result
  | Category name children =>
      let children' :=
        fold_left (fun acc child => pushKept modelId child acc) children [] in
      if Nat.ltb 0 (List.length children')
      then result ++ [Category name children']
      else result
  end.

Definition removeModelFromTree (items : list PinnedItem) (modelId : string)
  : list PinnedItem :=
  fold_left (fun result item => pushKept modelId item result) items [].

(** [return [...items, modelId];] *)
Definition addModelToTree (items : list PinnedItem) (modelId : string)
  : list PinnedItem :=
  items ++ [Leaf modelId].

(** *** Vocabulary of the specification *)

(** The leaves below one item, left to right: a leaf is itself, a
    category is the leaves of its children in order and adds nothing of
    its own. *)
Fixpoint leaves (item : PinnedItem) : list string :=
  match item with
  | Leaf s => [s]
  | Category _ children => flat_map leaves children
  end.

(** Depth-first pre-order flattening of a whole tree. *)
Definition preorder_leaves (items : list PinnedItem) : list string :=
  flat_map leaves items.

(** The category nodes of a tree at every depth, each as its name and
    its child list. *)
Fixpoint categories_of (item : PinnedItem)
  : list (string * list PinnedItem) :=
  match item with
  | Leaf _ => []
  | Category name children =>
      (name, children) :: flat_map categories_of children
  end.

Definition categories (items : list PinnedItem)
  : list (string * list PinnedItem) :=
  flat_map categories_of items.

(** No category, at any depth, has an empty child list. *)
Fixpoint populated_item (item : PinnedItem) : bool :=
  match item with
  | Leaf _ => true
  | Category _ children =>
      Nat.ltb 0 (List.length children) && forallb populated_item children
  end.

Definition populated (items : list PinnedItem) : bool :=
  forallb populated_item items.

(** An id other than [X]. *)
Definition differs_from (X : string) (id : string) : bool :=
  negb (String.eqb id X).

(** A category node with at least one child and at least one leaf below
    it. *)
Definition has_child_and_leaf (c : string * list PinnedItem) : Prop :=
  snd c <> [] /\ getPinnedModelIds (snd c) <> [].

End PinnedModels.

(** ** JavaScript values and abrupt completion *)

Module Js.

(** The values the settings JSON can hold, plus [undefined] (an absent
    argument or property).  An object is modelled as a record: its
    [children] property ([None] when the object has no such property)
    and its other own properties.  Numbers are observed only through
    their truthiness; integers stand for them. *)
Inductive value : Type :=
| VUndefined
| VNull
| VBool (b : bool)
| VNumber (n : Z)
| VString (s : string)
| VArray (elems : list value)
| VObject (children : option value) (others : list (string * value)).

(** Both ways these functions can throw are [TypeError]s. *)
Inductive TypeError : Type :=
| NotIterable           (* for-of or array spread over a non-iterable *)
| NullishPropertyRead.  (* [x.children] with [x] null or undefined *)

Inductive completion (A : Type) : Type :=
| Normal (a : A)
| Throw (e : TypeError).
Arguments Normal {A} a.
Arguments Throw {A} e.

Definition bind {A B} (c : completion A) (k : A -> completion B)
  : completion B :=
  match c with
  | Normal a => k a
  | Throw e => Throw e
  end.

Definition returns {A} (c : completion A) : bool :=
  match c with Normal _ => true | Throw _ => false end.

(** ToBoolean. *)
Definition truthy (v : value) : bool :=
  match v with
  | VUndefined | VNull => false
  | VBool b => b
  | VNumber n => negb (Z.eqb n 0)
  | VString s => negb (String.eqb s "")
  | VArray _ | VObject _ _ => true
  end.

Definition nullish (v : value) : bool :=
  match v with VUndefined | VNull => true | _ => false end.

(** [a ?? b] *)
Definition coalesce (a b : value) : value := if nullish a then b else a.

(** Iterating a string yields its characters, each a string. *)
Definition chars (s : string) : list string :=
  map (fun c => String c EmptyString) (list_ascii_of_string s).

(** What [for (const x of v)] and [[...v]] range over. *)
Definition iterate (v : value) : completion (list value) :=
  match v with
  | VArray elems => Normal elems
  | VString s => Normal (map VString (chars s))
  | _ => Throw NotIterable
  end.

(** A parameter declared [items = []]. *)
Definition or_empty_array (v : value) : value :=
  match v with VUndefined => VArray [] | _ => v end.

(** [v.children]: throws on null and undefined; primitives and arrays
    have no such property. *)
Definition get_children (v : value) : completion value :=
  match v with
  | VUndefined | VNull => Throw NullishPropertyRead
  | VObject (Some c) _ => Normal c
  | _ => Normal VUndefined
  end.

(** [v?.children] *)
Definition get_children_opt (v : value) : value :=
  match v with
  | VObject (Some c) _ => c
  | _ => VUndefined
  end.

End Js.

(** ** The tree utilities over untyped values *)

Module Runtime.
Import Js.

#[local] Notation "x <- c ;; k" := (bind c (fun x => k))
  (at level 61, c at next level, right associativity).

(** The body of the loop of [getPinnedModelIds], given the function
    itself for the recursive call: push a string item, recurse into a
    truthy [item?.children] and push what comes back, skip every other
    item.  A round runs only if the rounds before it did not throw. *)
Definition idsStep (recur : value -> completion (list string))
           (acc : completion (list string)) (item : value)
  : completion (list string) :=
  ids <- acc ;;
  match item with
  | VString s => Normal (ids ++ [s])
  | VObject (Some children) _ =>
      if truthy children
      then sub <- recur children ;; Normal (ids ++ sub)
      else Normal ids
  | _ => Normal ids
  end.

(** [getPinnedModelIds]: the parameter default, then the loop.  Over a
    string the loop sees one-character strings only and pushes each. *)
Fixpoint getPinnedModelIds (items : value) : completion (list string) :=
  match items with
  | VUndefined => Normal []
  | VArray elems => fold_left (idsStep getPinnedModelIds) elems (Normal [])
  | VString s => Normal (chars s)
  | _ => Throw NotIterable
  end.

(** The body of the loop of [removeModelFromTree].  A non-string item
    goes through [item.children ?? []]: reading the property throws on
    null and undefined; where the property is absent or nullish the
    recursive call runs on the empty array, returns it, and nothing is
    pushed.  An object is rebuilt by [{ ...item, children }], which keeps
    its other properties. *)
Definition removeStep (recur : value -> completion (list value))
           (modelId : string)
           (acc : completion (list value)) (item : value)
  : completion (list value) :=
  result <- acc ;;
  match item with
  | VString s =>
      if negb (String.eqb s modelId)
      then Normal (result ++ [item])
      else Normal result
  | VUndefined | VNull => Throw NullishPropertyRead
  | VObject (Some children) others =>
      if nullish children
      then Normal result
      else
        children' <- recur children ;;
        if Nat.ltb 0 (List.length children')
        then Normal (result ++ [VObject (Some (VArray children')) others])
        else Normal result
  | _ => Normal result
  end.

Fixpoint removeModelFromTree (items : value) (modelId : string)
  : completion (list value) :=
  match items with
  | VUndefined => Normal []
  | VArray elems =>
      fold_left
        (removeStep (fun children => removeModelFromTree children modelId)
                    modelId)
        elems (Normal [])
  | VString s =>
      Normal (map VString
                  (filter (fun c => negb (String.eqb c modelId)) (chars s)))
  | _ => Throw NotIterable
  end.

(** [addModelToTree]: [[...items, modelId]] after the parameter
    default. *)
Definition addModelToTree (items : value) (modelId : string)
  : completion (list value) :=
  elems <- iterate (or_empty_array items) ;;
  Normal (elems ++ [VString modelId]).

(** *** Typed trees as values *)

Fixpoint encode_item (item : PinnedModels.PinnedItem) : value :=
  match item with
  | PinnedModels.Leaf s => VString s
  | PinnedModels.Category name children =>
      VObject (Some (VArray (map encode_item children)))
              [("name", VString name)]
  end.

Definition encode (items : list PinnedModels.PinnedItem) : value :=
  VArray (map encode_item items).

(** *** The malformed trees the functions put up with *)

(** A string, or an array none of whose items is null or undefined, the
    [children] of an object item being absent, undefined, null, or again
    such a string or array. *)
Fixpoint tolerated (items : value) : bool :=
  match items with
  | VString _ => true
  | VArray elems =>
      forallb
        (fun item =>
           match item with
           | VUndefined | VNull => false
           | VObject (Some children) _ => nullish children || tolerated children
           | _ => true
           end)
        elems
  | _ => false
  end.

(** The items of a tree at every depth: [node_at d n items] when [n] is
    an item of [items] itself ([d = 0]) or lies [d] levels down,
    through the [children] of objects. *)
Inductive node_at : nat -> value -> value -> Prop :=
| node_top elems n :
    In n elems -> node_at 0 n (VArray elems)
| node_below d elems n children others :
    In (VObject (Some children) others) elems ->
    node_at d n children ->
    node_at (S d) n (VArray elems).

End Runtime.

(** ** The PDF text-extraction worker *)

Module PdfWorker.

(** *** The PDF library, as the worker sees it

    The library is external.  A call either fulfils with a value or
    rejects with an [Error] object; the worker reads nothing else. *)

Record ErrorObject : Type := { name : string; message : string }.

Inductive settled (A : Type) : Type :=
| Fulfilled (a : A)
| Rejected (e : ErrorObject).
Arguments Fulfilled {A} a.
Arguments Rejected {A} e.

Record TextItem : Type := { str : string }.
Record TextContent : Type := { items : list TextItem }.
Record PDFPageProxy : Type := { getTextContent : settled TextContent }.
Record PDFDocumentProxy : Type :=
  { numPages : Z;
    getPage : Z -> settled PDFPageProxy }.

Definition ArrayBuffer : Type := list Byte.byte.

(** [pdfjsLib.getDocument({ data }).promise] *)
Definition Library : Type := ArrayBuffer -> settled PDFDocumentProxy.

(** *** Messages and the observable trace *)

Inductive Message : Type :=
| Progress (page total : Z)
| Done (text : string)
| Error (error : string).

(** What the worker does that the outside can see, in order: its calls
    into the library and the messages it posts. *)
Inductive Event : Type :=
| CallGetDocument (data : ArrayBuffer)
| CallGetPage (pageNum : Z)
| CallGetTextContent (pageNum : Z)
| Post (m : Message).

(** An [async] computation: it extends the trace and settles. *)
Definition Task (A : Type) : Type := list Event -> list Event * settled A.

Definition ret {A} (a : A) : Task A := fun tr => (tr, Fulfilled a).

Definition bind {A B} (t : Task A) (k : A -> Task B) : Task B :=
  fun tr =>
    match t tr with
    | (tr', Fulfilled a) => k a tr'
    | (tr', Rejected e) => (tr', Rejected e)
    end.

#[local] Notation "x <- t ;; k" := (bind t (fun x => k))
  (at level 61, t at next level, right associativity).
#[local] Notation "t ;;; k" := (bind t (fun _ => k))
  (at level 61, right associativity).

(** [await] of a library call. *)
Definition await {A} (call : Event) (outcome : settled A) : Task A :=
  fun tr => (tr ++ [call], outcome).

Definition postMessage (m : Message) : Task unit :=
  fun tr => (tr ++ [Post m], Fulfilled tt).

(** [try { body } catch (error) { handler }] *)
Definition try_catch (body : Task unit) (handler : ErrorObject -> Task unit)
  : Task unit :=
  fun tr =>
    match body tr with
    | (tr', Fulfilled u) => (tr', Fulfilled u)
    | (tr', Rejected e) => handler e tr'
    end.

Definition newline : string := String (ascii_of_nat 10) EmptyString.

(** [String(error)] for an [Error] object. *)
Definition error_to_string (e : ErrorObject) : string :=
  if String.eqb (name e) "" then message e
  else if String.eqb (message e) "" then name e
  else (name e ++ ": " ++ message e)%string.

(** [error.message || String(error)] *)
Definition error_text (e : ErrorObject) : string :=
  if negb (String.eqb (message e) "") then message e else error_to_string e.

(** How many times the test [pageNum <= pdf.numPages] still succeeds
    when [pageNum] goes up by one each round. *)
Definition rounds (pdf : PDFDocumentProxy) (pageNum : Z) : nat :=
  Z.to_nat (numPages pdf + 1 - pageNum).

(** The [for] loop, by the number of rounds left. *)
Fixpoint pageLoop (pdf : PDFDocumentProxy) (remaining : nat) (pageNum : Z)
         (text : string) : Task string :=
  match remaining with
  | O => ret text
  | S remaining' =>
      page <- await (CallGetPage pageNum) (getPage pdf pageNum) ;;
      content <- await (CallGetTextContent pageNum) (getTextContent page) ;;
      let strings := map str (items content) in
      let text := (text ++ (String.concat " " strings ++ newline))%string in
      postMessage (Progress pageNum (numPages pdf)) ;;;
      pageLoop pdf remaining' (pageNum + 1) text
  end.

(** [self.onmessage], given the library and the buffer of the event. *)
Definition onmessage (getDocument : Library) (arrayBuffer : ArrayBuffer)
  : Task unit :=
  try_catch
    (pdf <- await (CallGetDocument arrayBuffer) (getDocument arrayBuffer) ;;
     text <- pageLoop pdf (rounds pdf 1) 1 "" ;;
     postMessage (Done text))
    (fun error => postMessage (Error (error_text error))).

(** The trace of one run, and the messages in it. *)
Definition trace (getDocument : Library) (arrayBuffer : ArrayBuffer)
  : list Event :=
  fst (onmessage getDocument arrayBuffer []).

Definition posted (tr : list Event) : list Message :=
  flat_map (fun ev => match ev with Post m => [m] | _ => [] end) tr.

Definition messages (getDocument : Library) (arrayBuffer : ArrayBuffer)
  : list Message :=
  posted (trace getDocument arrayBuffer).

Definition is_done (m : Message) : bool :=
  match m with Done _ => true | _ => false end.
Definition is_error (m : Message) : bool :=
  match m with Error _ => true | _ => false end.
Definition is_progress (m : Message) : bool :=
  match m with Progress _ _ => true | _ => false end.

(** *** Vocabulary of the specification *)

(** The text of one page: its fragments joined by single spaces, then a
    newline. *)
Definition page_text (fragments : list string) : string :=
  (String.concat " " fragments ++ newline)%string.

(** The texts of the pages one after the other. *)
Definition concat_texts (texts : list string) : string :=
  fold_right String.append "" texts.

(** Page numbers [first, first + 1, ...], [count] of them. *)
Fixpoint page_numbers (first : Z) (count : nat) : list Z :=
  match count with
  | O => []
  | S count' => first :: page_numbers (first + 1) count'
  end.

(** Pages [first, first + 1, ...] of the document extract fine and carry,
    in order, the fragment lists [pages]. *)
Definition extract_fine (pdf : PDFDocumentProxy) (first : Z)
           (pages : list (list string)) : Prop :=
  forall i fragments,
    nth_error pages i = Some fragments ->
    exists page content,
      getPage pdf (first + Z.of_nat i)%Z = Fulfilled page /\
      getTextContent page = Fulfilled content /\
      map str (items content) = fragments.

(** The library parses the buffer into a document whose pages, in
    order, carry the fragment lists [pages]. *)
Definition parses_into (getDocument : Library) (arrayBuffer : ArrayBuffer)
           (pages : list (list string)) : Prop :=
  exists pdf,
    getDocument arrayBuffer = Fulfilled pdf /\
    numPages pdf = Z.of_nat (List.length pages) /\
    extract_fine pdf 1 pages.

(** The first failure a run meets: parsing rejects, or pages
    [1 .. List.length before] extract fine (with the fragments [before])
    and the next page [k], still within the document, rejects in
    [getPage] or in [getTextContent].  [calls] are the library calls the
    worker makes on the failing page. *)
Inductive fails_with (getDocument : Library) (arrayBuffer : ArrayBuffer)
  : list (list string) -> list Event -> ErrorObject -> Prop :=
| parse_fails e :
    getDocument arrayBuffer = Rejected e ->
    fails_with getDocument arrayBuffer [] [] e
| page_fails pdf before k calls e :
    getDocument arrayBuffer = Fulfilled pdf ->
    k = (1 + Z.of_nat (List.length before))%Z ->
    (k <= numPages pdf)%Z ->
    extract_fine pdf 1 before ->
    (getPage pdf k = Rejected e /\ calls = [CallGetPage k]
     \/ exists page,
          getPage pdf k = Fulfilled page /\
          getTextContent page = Rejected e /\
          calls = [CallGetPage k; CallGetTextContent k]) ->
    fails_with getDocument arrayBuffer before calls e.

(** The events of the pages that extract fine, numbered from [first]. *)
Fixpoint page_events (total : Z) (first : Z) (pages : list (list string))
  : list Event :=
  match pages with
  | [] => []
  | _ :: pages' =>
      [CallGetPage first; CallGetTextContent first;
       Post (Progress first total)]
      ++ page_events total (first + 1) pages'
  end.

(** *** Sample libraries *)

(** A three-page document; the second page has no text. *)
Definition three_pages : Library :=
  fun _ =>
    Fulfilled
      {| numPages := 3;
         getPage := fun pageNum =>
           Fulfilled
             {| getTextContent :=
                  Fulfilled
                    {| items :=
                         if Z.eqb pageNum 1
                         then [ {| str := "Hello" |}; {| str := "world" |} ]
                         else if Z.eqb pageNum 2 then []
                         else [ {| str := "end" |} ] |} |} |}.

(** A document without pages. *)
Definition empty_document : Library :=
  fun _ =>
    Fulfilled
      {| numPages := 0;
         getPage := fun _ =>
           Rejected {| name := "Error"; message := "Invalid page request." |} |}.

(** Not a PDF: parsing rejects. *)
Definition not_a_pdf : Library :=
  fun _ =>
    Rejected {| name := "InvalidPDFException";
                message := "Invalid PDF structure." |}.

(** Three pages, the second of which cannot be read; the error carries
    no message. *)
Definition second_page_unreadable : Library :=
  fun _ =>
    Fulfilled
      {| numPages := 3;
         getPage := fun pageNum =>
           Fulfilled
             {| getTextContent :=
                  if Z.eqb pageNum 2
                  then Rejected {| name := "UnknownErrorException";
                                   message := "" |}
                  else Fulfilled {| items := [ {| str := "text" |} ] |} |} |}.

End PdfWorker.

(** ** The sidebar components that use the tree *)

Module Sidebar.
Import Js.

(** *** The settings store and the persistence calls *)

(** [$settings]: its [pinnedModels] property ([VUndefined] when absent)
    and its other properties. *)
Record Settings : Type :=
  { pinnedModels : value;
    otherSettings : list (string * value) }.

(** The store, and the calls [updateUserSettings(token, { ui })] made so
    far, each with its token and the settings it sends. *)
Record World : Type :=
  { store : Settings;
    requests : list (string * Settings) }.

(** How a handler can throw: in [removeModelFromTree], or by calling
    [splice] on a [pinnedModels] that is null or undefined, or that is
    no array. *)
Inductive HandlerError : Type :=
| RemovalThrew (e : TypeError)
| SpliceOfNullish
| SpliceNotAFunction.

Inductive Outcome : Type :=
| Finished
| Threw (e : HandlerError).

(** [settings.set({ ...$settings, pinnedModels })], then
    [updateUserSettings(localStorage.token, { ui: $settings })], which
    reads the store just set. *)
Definition set_and_persist (token : string) (pinned : value) (w : World)
  : World :=
  let settings' :=
    {| pinnedModels := pinned; otherSettings := otherSettings (store w) |} in
  {| store := settings'; requests := requests w ++ [(token, settings')] |}.

(** [unpinModel]: a throw in [removeModelFromTree] leaves before the
    store is set. *)
Definition unpinModel (token : string) (modelId : string) (w : World)
  : World * Outcome :=
  match Runtime.removeModelFromTree
          (coalesce (pinnedModels (store w)) (VArray [])) modelId with
  | Normal tree => (set_and_persist token (VArray tree) w, Finished)
  | Throw e => (w, Threw (RemovalThrew e))
  end.

(** [l.splice(start, 1)] for an index [start >= 0]: what is left of [l]
    and the array of what was taken out (nothing when [start] is past the
    end). *)
Definition splice_delete_one {A} (l : list A) (start : nat)
  : list A * list A :=
  (firstn start l ++ skipn (S start) l, firstn 1 (skipn start l)).

(** [l.splice(start, 0, v)] for an index [start >= 0]: [v] goes in at
    [start], or at the end when [start] is past it. *)
Definition splice_insert {A} (l : list A) (start : nat) (v : A) : list A :=
  firstn start l ++ v :: skipn start l.

(** The two [splice] calls of [onUpdate]; [removed[0]] is [undefined]
    when nothing was taken out. *)
Definition reorder (pinned : list value) (oldIndex newIndex : nat)
  : list value :=
  let (rest, removed) := splice_delete_one pinned oldIndex in
  let moved := hd VUndefined removed in
  splice_insert rest newIndex moved.

(** The [onUpdate] handler of the sortable list, on the indices of the
    event. *)
Definition onUpdate (token : string) (oldIndex newIndex : nat) (w : World)
  : World * Outcome :=
  match pinnedModels (store w) with
  | VArray pinned =>
      (set_and_persist token (VArray (reorder pinned oldIndex newIndex)) w,
       Finished)
  | VUndefined | VNull => (w, Threw SpliceOfNullish)
  | _ => (w, Threw SpliceNotAFunction)
  end.

(** *** What the templates show *)








(** The key of an item in the [{#each}] block:
    [typeof item === 'string' ? item : item.name]. *)
Definition each_key (item : PinnedModels.PinnedItem) : string :=
  match item with
  | PinnedModels.Leaf s => s
  | PinnedModels.Category name _ => name
  end.

(** An item that removal of [X] leaves in its list: a leaf other than
    [X], a category that keeps a child. *)
Definition survives (X : string) (item : PinnedModels.PinnedItem) : bool :=
  match item with
  | PinnedModels.Leaf s => negb (String.eqb s X)
  | PinnedModels.Category _ children =>
      Nat.ltb 0 (List.length (PinnedModels.removeModelFromTree children X))
  end.






(** *** Sequences of user actions *)

Inductive Action : Type :=
| Unpin (modelId : string)
| Drag (oldIndex newIndex : nat).

Definition handle (token : string) (a : Action) (w : World)
  : World * Outcome :=
  match a with
  | Unpin modelId => unpinModel token modelId w
  | Drag oldIndex newIndex => onUpdate token oldIndex newIndex w
  end.

(** The handlers run one after the other, each on the world the one
    before left. *)
Definition run (token : string) (actions : list Action) (w : World) : World :=
  fold_left (fun w a => fst (handle token a w)) actions w.

(** The last request sent carries the settings the store holds. *)
Definition synced (w : World) : Prop :=
  exists earlier token, requests w = earlier ++ [(token, store w)].

End Sidebar.

(* ================================================================== *)
(** * Part II: properties                                              *)
(* ================================================================== *)

(** ** Typed trees *)

Module PinnedModelsFacts.
Import PinnedModels.

(** *** Induction along the recursion of the source

    The functions recurse on the rest of the list and, at a category, on
    its children; this is the matching induction principle. *)

Section TreeInduction.
Variable P : list PinnedItem -> Prop.
Hypothesis P_nil : P [].
Hypothesis P_leaf : forall s rest, P rest -> P (Leaf s :: rest).
Hypothesis P_category :
  forall name children rest,
    P children -> P rest -> P (Category name children :: rest).

Lemma item_step : forall item rest, P rest -> P (item :: rest).
Proof.
  fix step 1. intros [s | name children] rest Hrest.
  - now apply P_leaf.
  - apply P_category; [| exact Hrest].
    induction children as [|child children' IH]; [exact P_nil |].
    apply step, IH.
Qed.

Lemma tree_ind : forall items, P items.
Proof.
  induction items as [|item rest IH]; [exact P_nil | exact (item_step item rest IH)].
Qed.
End TreeInduction.

(** *** The source's equations *)

Lemma pushIds_acc item ids : pushIds item ids = ids ++ pushIds item [].
Proof. destruct item; reflexivity. Qed.

Lemma ids_loop_acc items :
  forall ids,
    fold_left (fun ids item => pushIds item ids) items ids
    = ids ++ getPinnedModelIds items.
Proof.
  unfold getPinnedModelIds.
  induction items as [|item rest IH]; intro ids; simpl.
  - now rewrite app_nil_r.
  - rewrite IH, (IH (pushIds item [])), (pushIds_acc item ids).
    now rewrite app_assoc.
Qed.

Lemma getPinnedModelIds_nil : getPinnedModelIds [] = [].
Proof. reflexivity. Qed.

Lemma getPinnedModelIds_leaf s rest :
  getPinnedModelIds (Leaf s :: rest) = s :: getPinnedModelIds rest.
Proof. unfold getPinnedModelIds at 1; simpl. now rewrite ids_loop_acc. Qed.

Lemma getPinnedModelIds_category name children rest :
  getPinnedModelIds (Category name children :: rest)
  = getPinnedModelIds children ++ getPinnedModelIds rest.
Proof. unfold getPinnedModelIds at 1; simpl. now rewrite ids_loop_acc. Qed.

Lemma pushKept_acc modelId item result :
  pushKept modelId item result = result ++ pushKept modelId item [].
Proof.
  destruct item; simpl.
  - destruct (negb _); simpl; now rewrite ?app_nil_r.
  - destruct (Nat.ltb _ _); simpl; now rewrite ?app_nil_r.
Qed.

Lemma remove_loop_acc modelId items :
  forall result,
    fold_left (fun result item => pushKept modelId item result) items result
    = result ++ removeModelFromTree items modelId.
Proof.
  unfold removeModelFromTree.
  induction items as [|item rest IH]; intro result; simpl.
  - now rewrite app_nil_r.
  - rewrite IH, (IH (pushKept modelId item [])), (pushKept_acc modelId item result).
    now rewrite app_assoc.
Qed.

Lemma removeModelFromTree_nil modelId : removeModelFromTree [] modelId = [].
Proof. reflexivity. Qed.

Lemma removeModelFromTree_leaf s rest modelId :
  removeModelFromTree (Leaf s :: rest) modelId
  = if String.eqb s modelId
    then removeModelFromTree rest modelId
    else Leaf s :: removeModelFromTree rest modelId.
Proof.
  unfold removeModelFromTree at 1; simpl. rewrite remove_loop_acc.
  now destruct (String.eqb s modelId).
Qed.

Lemma removeModelFromTree_category name children rest modelId :
  removeModelFromTree (Category name children :: rest) modelId
  = match removeModelFromTree children modelId with
    | [] => removeModelFromTree rest modelId
    | kept => Category name kept :: removeModelFromTree rest modelId
    end.
Proof.
  unfold removeModelFromTree at 1; simpl. rewrite remove_loop_acc.
  fold (removeModelFromTree children modelId).
  now destruct (removeModelFromTree children modelId).
Qed.

Lemma getPinnedModelIds_app xs ys :
  getPinnedModelIds (xs ++ ys) = getPinnedModelIds xs ++ getPinnedModelIds ys.
Proof.
  unfold getPinnedModelIds at 1. rewrite fold_left_app.
  fold (getPinnedModelIds xs). now rewrite ids_loop_acc.
Qed.

Lemma removeModelFromTree_app xs ys modelId :
  removeModelFromTree (xs ++ ys) modelId
  = removeModelFromTree xs modelId ++ removeModelFromTree ys modelId.
Proof.
  unfold removeModelFromTree at 1. rewrite fold_left_app.
  fold (removeModelFromTree xs modelId). now rewrite remove_loop_acc.
Qed.

Create Rewrite HintDb tree.
#[local] Hint Rewrite getPinnedModelIds_nil getPinnedModelIds_leaf
  getPinnedModelIds_category removeModelFromTree_nil
  removeModelFromTree_leaf removeModelFromTree_category : tree.

(** *** Flattening *)

(** C2.  [getPinnedModelIds] returns the leaves of the tree in
    depth-first pre-order: siblings in list order, the leaves of a
    category's children in place of the category, and nothing for the
    category itself. *)
Theorem getPinnedModelIds_preorder (items : list PinnedItem) :
  getPinnedModelIds items = preorder_leaves items.
Proof.
  induction items as [| s rest IH | name children rest IHc IHr] using tree_ind;
    autorewrite with tree; unfold preorder_leaves in *; simpl.
  - reflexivity.
  - now rewrite IH.
  - now rewrite IHc, IHr.
Qed.

(** *** Adding *)

(** C6.  [addModelToTree] keeps every item where it was and puts the new
    leaf last at the top level; the flattened ids gain the new id at the
    end, and one more occurrence of it whether or not it was there. *)
Theorem addModelToTree_appends (T : list PinnedItem) (X : string) :
  addModelToTree T X = T ++ [Leaf X]
  /\ firstn (List.length T) (addModelToTree T X) = T
  /\ skipn (List.length T) (addModelToTree T X) = [Leaf X]
  /\ getPinnedModelIds (addModelToTree T X) = getPinnedModelIds T ++ [X]
  /\ count_occ string_dec (getPinnedModelIds (addModelToTree T X)) X
     = S (count_occ string_dec (getPinnedModelIds T) X).
Proof.
  unfold addModelToTree. repeat split.
  - rewrite firstn_app, Nat.sub_diag, firstn_all. simpl. apply app_nil_r.
  - rewrite skipn_app, Nat.sub_diag, skipn_all. reflexivity.
  - rewrite getPinnedModelIds_app. now autorewrite with tree.
  - rewrite getPinnedModelIds_app, count_occ_app. autorewrite with tree.
    simpl. destruct (string_dec X X); [lia | contradiction].
Qed.

(** *** Removing *)

Lemma removed_ids T X :
  getPinnedModelIds (removeModelFromTree T X)
  = filter (differs_from X) (getPinnedModelIds T).
Proof.
  induction T as [| s rest IH | name children rest IHc IHr] using tree_ind;
    autorewrite with tree.
  - reflexivity.
  - simpl. unfold differs_from at 1.
    destruct (String.eqb s X); simpl; autorewrite with tree; now rewrite IH.
  - rewrite filter_app, <- IHc, <- IHr.
    destruct (removeModelFromTree children X); now autorewrite with tree.
Qed.

Lemma kept_has_leaf T X :
  removeModelFromTree T X <> [] ->
  getPinnedModelIds (removeModelFromTree T X) <> [].
Proof.
  induction T as [| s rest IH | name children rest IHc IHr] using tree_ind;
    autorewrite with tree.
  - intros H; now contradiction H.
  - destruct (String.eqb s X); [exact IH |].
    intros _. autorewrite with tree. discriminate.
  - destruct (removeModelFromTree children X) as [|k kept] eqn:E; [exact IHr |].
    intros _. autorewrite with tree.
    intros H. apply app_eq_nil in H. destruct H as [H _].
    now apply IHc.
Qed.

Lemma categories_cons_category name children rest :
  categories (Category name children :: rest)
  = (name, children) :: categories children ++ categories rest.
Proof. reflexivity. Qed.

Lemma removed_categories_nonempty T X :
  Forall has_child_and_leaf (categories (removeModelFromTree T X)).
Proof.
  induction T as [| s rest IH | name children rest IHc IHr] using tree_ind;
    autorewrite with tree.
  - constructor.
  - destruct (String.eqb s X); [exact IH | exact IH].
  - destruct (removeModelFromTree children X) as [|k kept] eqn:E; [exact IHr |].
    rewrite categories_cons_category.
    constructor; [| apply Forall_app; split; assumption].
    split; simpl; [discriminate |].
    rewrite <- E. apply kept_has_leaf. rewrite E. discriminate.
Qed.

Lemma removed_populated T X : populated (removeModelFromTree T X) = true.
Proof.
  induction T as [| s rest IH | name children rest IHc IHr] using tree_ind;
    autorewrite with tree.
  - reflexivity.
  - destruct (String.eqb s X); [exact IH | exact IH].
  - destruct (removeModelFromTree children X) as [|k kept] eqn:E; [exact IHr |].
    unfold populated in *. simpl in *. now rewrite IHc, IHr.
Qed.

Lemma remove_absent T X :
  ~ In X (getPinnedModelIds T) ->
  populated T = true ->
  removeModelFromTree T X = T.
Proof.
  induction T as [| s rest IH | name children rest IHc IHr] using tree_ind;
    autorewrite with tree.
  - reflexivity.
  - intros Hin Hpop. destruct (String.eqb_spec s X) as [->|Hne].
    + contradiction Hin. now left.
    + rewrite IH; [reflexivity | | exact Hpop].
      intros H. apply Hin. now right.
  - intros Hin Hpop. unfold populated in Hpop. simpl in Hpop.
    apply andb_prop in Hpop. destruct Hpop as [Hc Hr].
    apply andb_prop in Hc. destruct Hc as [Hlen Hc].
    rewrite IHc, IHr; try assumption.
    + destruct children; [discriminate Hlen | reflexivity].
    + intros H. apply Hin, in_or_app. now right.
    + intros H. apply Hin, in_or_app. now left.
Qed.

(** C1.  [removeModelFromTree] removes every leaf equal to the id, at
    every depth: the flattened ids of the result are those of the input
    without the id, so the id does not occur among them.  Every category
    left in the result, at any depth, has a child and a leaf below it; and
    in any child list a category contributes its rebuilt self when its
    filtered children are not empty and nothing when they are. *)
Theorem removeModelFromTree_removes_all (T : list PinnedItem) (X : string) :
  getPinnedModelIds (removeModelFromTree T X)
  = filter (differs_from X) (getPinnedModelIds T)
  /\ ~ In X (getPinnedModelIds (removeModelFromTree T X))
  /\ Forall has_child_and_leaf (categories (removeModelFromTree T X))
  /\ forall before name children after,
       removeModelFromTree (before ++ Category name children :: after) X
       = removeModelFromTree before X
         ++ match removeModelFromTree children X with
            | [] => []
            | kept => [Category name kept]
            end
         ++ removeModelFromTree after X.
Proof.
  split; [apply removed_ids |].
  split.
  - rewrite removed_ids. intros H. apply filter_In in H.
    destruct H as [_ H]. unfold differs_from in H.
    now rewrite String.eqb_refl in H.
  - split; [apply removed_categories_nonempty |].
    intros before name children after.
    rewrite removeModelFromTree_app. autorewrite with tree.
    now destruct (removeModelFromTree children X).
Qed.

(** C7.  Removing the same id a second time changes nothing: the two
    trees are equal, hence have the same flattened ids and the same
    categories. *)
Theorem removeModelFromTree_idempotent (T : list PinnedItem) (X : string) :
  removeModelFromTree (removeModelFromTree T X) X = removeModelFromTree T X.
Proof.
  apply remove_absent; [| apply removed_populated].
  rewrite removed_ids. intros H. apply filter_In in H.
  destruct H as [_ H]. unfold differs_from in H.
  now rewrite String.eqb_refl in H.
Qed.

(** An empty category is pruned even when the id is not in the tree. *)
Lemma removeModelFromTree_absent_not_identity :
  ~ In "x" (getPinnedModelIds [Category "G" []])
  /\ removeModelFromTree [Category "G" []] "x" = []
  /\ removeModelFromTree [Category "G" []] "x" <> [Category "G" []]
  /\ categories (removeModelFromTree [Category "G" []] "x")
     <> categories [Category "G" []].
Proof.
  repeat split; try (vm_compute; discriminate).
  vm_compute. intros H; exact H.
Qed.

(** C3, amended.  When the id is no leaf of the tree, removal keeps the
    flattened ids, and returns the tree itself exactly when no category
    of the tree, at any depth, has an empty child list. *)
Theorem removeModelFromTree_absent (T : list PinnedItem) (X : string)
        (Habsent : ~ In X (getPinnedModelIds T)) :
  getPinnedModelIds (removeModelFromTree T X) = getPinnedModelIds T
  /\ (removeModelFromTree T X = T <-> populated T = true).
Proof.
  split.
  - rewrite removed_ids. apply forallb_filter_id, forallb_forall.
    intros id Hid. unfold differs_from.
    destruct (String.eqb_spec id X) as [->|]; [contradiction | reflexivity].
  - split.
    + intros H. rewrite <- H. apply removed_populated.
    + now apply remove_absent.
Qed.

Lemma removeModelFromTree_absent_witness :
  getPinnedModelIds
    (removeModelFromTree [Leaf "a"; Category "G" [Leaf "b"; Leaf "c"]] "z")
  = ["a"; "b"; "c"]
  /\ (removeModelFromTree [Leaf "a"; Category "G" [Leaf "b"; Leaf "c"]] "z"
      = [Leaf "a"; Category "G" [Leaf "b"; Leaf "c"]]
      <-> populated [Leaf "a"; Category "G" [Leaf "b"; Leaf "c"]] = true).
Proof.
  apply (removeModelFromTree_absent
           [Leaf "a"; Category "G" [Leaf "b"; Leaf "c"]] "z").
  vm_compute. intuition discriminate.
Defined.

(** Under the types: a category of the result has the name of a category
    of the input, and for children what removal leaves of that
    category's children. *)
Lemma removed_categories_stem T X :
  forall name kept,
    In (name, kept) (categories (removeModelFromTree T X)) ->
    exists children,
      In (name, children) (categories T)
      /\ kept = removeModelFromTree children X
      /\ kept <> [].
Proof.
  induction T as [| s rest IH | n children rest IHc IHr] using tree_ind;
    intros name kept; autorewrite with tree.
  - intros [].
  - destruct (String.eqb s X); exact (IH name kept).
  - rewrite categories_cons_category.
    assert (Hrest : In (name, kept) (categories (removeModelFromTree rest X)) ->
                    exists children0,
                      In (name, children0)
                         ((n, children) :: categories children ++ categories rest)
                      /\ kept = removeModelFromTree children0 X /\ kept <> []).
    { intros Hin. destruct (IHr _ _ Hin) as (c & Hc & Hk).
      exists c. split; [right; apply in_or_app; now right | exact Hk]. }
    destruct (removeModelFromTree children X) as [|k ks] eqn:E; [exact Hrest |].
    rewrite categories_cons_category. intros [Heq | Hin].
    + injection Heq as <- <-. exists children.
      split; [now left |]. split; [now rewrite E | discriminate].
    + apply in_app_or in Hin. destruct Hin as [Hin | Hin]; [| now apply Hrest].
      destruct (IHc _ _ Hin) as (c & Hc & Hk).
      exists c. split; [right; apply in_or_app; now left | exact Hk].
Qed.

(** The examples of the specification. *)
Example spec_examples :
  let T := [Leaf "a"; Category "G" [Leaf "b"; Leaf "c"]] in
  getPinnedModelIds T = ["a"; "b"; "c"]
  /\ removeModelFromTree T "b" = [Leaf "a"; Category "G" [Leaf "c"]]
  /\ removeModelFromTree (removeModelFromTree T "c") "b" = [Leaf "a"]
  /\ addModelToTree T "d" = [Leaf "a"; Category "G" [Leaf "b"; Leaf "c"]; Leaf "d"].
Proof. repeat split. Qed.

End PinnedModelsFacts.

(** ** Trees as untyped values *)

Module RuntimeFacts.
Import Js Runtime.

#[local] Notation "x <- c ;; k" := (bind c (fun x => k))
  (at level 61, c at next level, right associativity).

(** *** The loops, one item at a time *)

Lemma idsStep_acc recur acc item :
  idsStep recur acc item
  = ids <- acc ;; pushed <- idsStep recur (Normal []) item ;;
    Normal (ids ++ pushed).
Proof.
  destruct acc as [ids|e]; [| reflexivity].
  destruct item as [| | | | s | elems | [children|] others]; simpl;
    rewrite ?app_nil_r; try reflexivity.
  destruct (truthy children); simpl; [| now rewrite app_nil_r].
  now destruct (recur children).
Qed.

Lemma ids_fold_acc recur elems :
  forall acc,
    fold_left (idsStep recur) elems acc
    = ids <- acc ;; more <- fold_left (idsStep recur) elems (Normal []) ;;
      Normal (ids ++ more).
Proof.
  induction elems as [|item rest IH]; intro acc; cbn [fold_left].
  - destruct acc; simpl; now rewrite ?app_nil_r.
  - rewrite IH, (IH (idsStep recur (Normal []) item)), (idsStep_acc recur acc).
    generalize (idsStep recur (Normal []) item) as pushed.
    generalize (fold_left (idsStep recur) rest (Normal [])) as more.
    intros [more|e1] [pushed|e2]; destruct acc as [ids|e3]; cbn [bind];
      now rewrite ?app_assoc.
Qed.

Lemma getPinnedModelIds_cons item rest :
  getPinnedModelIds (VArray (item :: rest))
  = pushed <- idsStep getPinnedModelIds (Normal []) item ;;
    more <- getPinnedModelIds (VArray rest) ;;
    Normal (pushed ++ more).
Proof. cbn [getPinnedModelIds fold_left]. now rewrite ids_fold_acc. Qed.

Lemma removeStep_acc recur X acc item :
  removeStep recur X acc item
  = result <- acc ;; pushed <- removeStep recur X (Normal []) item ;;
    Normal (result ++ pushed).
Proof.
  destruct acc as [result|e]; [| reflexivity].
  destruct item as [| | | | s | elems | [children|] others]; simpl;
    rewrite ?app_nil_r; try reflexivity.
  - destruct (negb _); simpl; now rewrite ?app_nil_r.
  - destruct (nullish children); simpl; [now rewrite app_nil_r |].
    destruct (recur children) as [kept|e]; [simpl | reflexivity].
    destruct (Nat.ltb _ _); simpl; now rewrite ?app_nil_r.
Qed.

Lemma remove_fold_acc recur X elems :
  forall acc,
    fold_left (removeStep recur X) elems acc
    = result <- acc ;;
      more <- fold_left (removeStep recur X) elems (Normal []) ;;
      Normal (result ++ more).
Proof.
  induction elems as [|item rest IH]; intro acc; cbn [fold_left].
  - destruct acc; simpl; now rewrite ?app_nil_r.
  - rewrite IH, (IH (removeStep recur X (Normal []) item)),
      (removeStep_acc recur X acc).
    generalize (removeStep recur X (Normal []) item) as pushed.
    generalize (fold_left (removeStep recur X) rest (Normal [])) as more.
    intros [more|e1] [pushed|e2]; destruct acc as [result|e3]; cbn [bind];
      now rewrite ?app_assoc.
Qed.

Lemma removeModelFromTree_cons item rest X :
  removeModelFromTree (VArray (item :: rest)) X
  = pushed <- removeStep (fun c => removeModelFromTree c X) X (Normal []) item ;;
    more <- removeModelFromTree (VArray rest) X ;;
    Normal (pushed ++ more).
Proof. cbn [removeModelFromTree fold_left]. now rewrite remove_fold_acc. Qed.

(** The loop body of [removeModelFromTree] as the source writes it, with
    [item.children ?? []] and the recursive call on it. *)
Lemma removeStep_source X item :
  removeStep (fun c => removeModelFromTree c X) X (Normal []) item
  = match item with
    | VString s => Normal (if negb (String.eqb s X) then [item] else [])
    | _ =>
        read <- get_children item ;;
        children <- removeModelFromTree (coalesce read (VArray [])) X ;;
        Normal match item with
               | VObject _ others =>
                   if Nat.ltb 0 (List.length children)
                   then [VObject (Some (VArray children)) others]
                   else []
               | _ => []
               end
    end.
Proof.
  destruct item as [| | | | s | elems | [children|] others]; simpl;
    try reflexivity.
  - now destruct (negb _).
  - unfold coalesce. destruct (nullish children); [reflexivity |].
    destruct (removeModelFromTree children X) as [kept|e]; [simpl | reflexivity].
    now destruct (Nat.ltb _ _).
Qed.

(** The loop body of [getPinnedModelIds] as the source writes it. *)
Lemma idsStep_source item :
  idsStep getPinnedModelIds (Normal []) item
  = match item with
    | VString s => Normal [s]
    | _ =>
        if truthy (get_children_opt item)
        then getPinnedModelIds (get_children_opt item)
        else Normal []
    end.
Proof.
  destruct item as [| | | | s | elems | [children|] others]; simpl;
    try reflexivity.
  destruct (truthy children); [| reflexivity].
  now destruct (getPinnedModelIds children).
Qed.

(** Both loops range over [iterate] of the defaulted argument; over a
    string that is its characters. *)
Lemma getPinnedModelIds_iterates items :
  getPinnedModelIds items
  = elems <- iterate (or_empty_array items) ;;
    fold_left (idsStep getPinnedModelIds) elems (Normal []).
Proof.
  destruct items as [| | | | s | elems | c others]; try reflexivity.
  simpl. induction (chars s) as [|c cs IH]; [reflexivity |].
  simpl. rewrite ids_fold_acc, <- IH. reflexivity.
Qed.

Lemma removeModelFromTree_iterates items X :
  removeModelFromTree items X
  = elems <- iterate (or_empty_array items) ;;
    fold_left (removeStep (fun c => removeModelFromTree c X) X) elems (Normal []).
Proof.
  destruct items as [| | | | s | elems | c others]; try reflexivity.
  simpl. induction (chars s) as [|c cs IH]; [reflexivity |].
  simpl. rewrite remove_fold_acc, <- IH.
  now destruct (negb (String.eqb c X)).
Qed.

(** *** Induction along the recursion of the source

    Both functions recurse on the rest of the array and, at an object
    with a [children] property, on that property. *)

Section ValueInduction.
Variable P : value -> Prop.
Hypothesis P_other : forall v, (forall elems, v <> VArray elems) -> P v.
Hypothesis P_empty : P (VArray []).
Hypothesis P_plain :
  forall item rest,
    (forall children others, item <> VObject (Some children) others) ->
    P (VArray rest) -> P (VArray (item :: rest)).
Hypothesis P_parent :
  forall children others rest,
    P children -> P (VArray rest) ->
    P (VArray (VObject (Some children) others :: rest)).

Lemma value_step :
  forall v, P v /\ (forall rest, P (VArray rest) -> P (VArray (v :: rest))).
Proof.
  fix step 1. intros v.
  destruct v as [| | | | s | elems | [children|] others];
    try (split; [apply P_other; discriminate
                | intros rest; apply P_plain; discriminate]).
  - split.
    + induction elems as [|item elems' IH]; [exact P_empty |].
      exact (proj2 (step item) elems' IH).
    + intros rest. apply P_plain. discriminate.
  - split; [apply P_other; discriminate |].
    intros rest. apply P_parent. exact (proj1 (step children)).
Qed.

Lemma value_tree_ind : forall v, P v.
Proof. intros v. apply value_step. Qed.
End ValueInduction.

(** *** Agreement with the typed functions *)

Lemma getPinnedModelIds_agrees T :
  getPinnedModelIds (encode T) = Normal (PinnedModels.getPinnedModelIds T).
Proof.
  induction T as [| s rest IH | name children rest IHc IHr]
    using PinnedModelsFacts.tree_ind; unfold encode in *.
  - reflexivity.
  - cbn [map encode_item]. rewrite getPinnedModelIds_cons, IH.
    now rewrite PinnedModelsFacts.getPinnedModelIds_leaf.
  - cbn [map encode_item]. rewrite getPinnedModelIds_cons, IHr.
    cbn [idsStep bind truthy]. rewrite IHc.
    now rewrite PinnedModelsFacts.getPinnedModelIds_category.
Qed.

Lemma removeModelFromTree_agrees T X :
  removeModelFromTree (encode T) X
  = Normal (map encode_item (PinnedModels.removeModelFromTree T X)).
Proof.
  induction T as [| s rest IH | name children rest IHc IHr]
    using PinnedModelsFacts.tree_ind; unfold encode in *.
  - reflexivity.
  - cbn [map encode_item]. rewrite removeModelFromTree_cons, IH.
    rewrite PinnedModelsFacts.removeModelFromTree_leaf.
    cbn [removeStep bind]. now destruct (String.eqb s X).
  - cbn [map encode_item]. rewrite removeModelFromTree_cons, IHr.
    rewrite PinnedModelsFacts.removeModelFromTree_category.
    cbn [removeStep bind nullish]. rewrite IHc. cbn [bind].
    now destruct (PinnedModels.removeModelFromTree children X).
Qed.

Lemma addModelToTree_agrees T X :
  addModelToTree (encode T) X
  = Normal (map encode_item (PinnedModels.addModelToTree T X)).
Proof.
  unfold addModelToTree, PinnedModels.addModelToTree, encode. simpl.
  now rewrite map_app.
Qed.

(** *** Malformed trees *)

Lemma getPinnedModelIds_concat xs ys :
  getPinnedModelIds (VArray (xs ++ ys))
  = front <- getPinnedModelIds (VArray xs) ;;
    back <- getPinnedModelIds (VArray ys) ;;
    Normal (front ++ back).
Proof.
  cbn [getPinnedModelIds]. rewrite fold_left_app. apply ids_fold_acc.
Qed.

Lemma removeModelFromTree_concat xs ys X :
  removeModelFromTree (VArray (xs ++ ys)) X
  = front <- removeModelFromTree (VArray xs) X ;;
    back <- removeModelFromTree (VArray ys) X ;;
    Normal (front ++ back).
Proof.
  cbn [removeModelFromTree]. rewrite fold_left_app. apply remove_fold_acc.
Qed.

Lemma tolerated_returns X :
  forall items,
    tolerated items = true ->
    returns (getPinnedModelIds items) = true
    /\ returns (removeModelFromTree items X) = true.
Proof.
  induction items as [v Hv | | item rest Hitem IH | children others rest IHc IHr]
    using value_tree_ind; intros Htol.
  - destruct v; try discriminate Htol; [split; reflexivity |].
    now contradiction (Hv elems).
  - split; reflexivity.
  - cbn [tolerated forallb] in Htol. apply andb_prop in Htol.
    destruct Htol as [Hi Hr]. destruct (IH Hr) as [IHg IHd].
    rewrite getPinnedModelIds_cons, removeModelFromTree_cons.
    destruct (getPinnedModelIds (VArray rest)); [| discriminate IHg].
    destruct (removeModelFromTree (VArray rest) X); [| discriminate IHd].
    destruct item as [| | | | s | elems | [children|] others];
      try discriminate Hi; try (split; reflexivity).
    + cbn [idsStep removeStep bind]. now destruct (negb _).
    + now contradiction (Hitem children others).
  - cbn [tolerated forallb] in Htol. apply andb_prop in Htol.
    destruct Htol as [Hc Hr]. destruct (IHr Hr) as [IHg IHd].
    rewrite getPinnedModelIds_cons, removeModelFromTree_cons.
    destruct (getPinnedModelIds (VArray rest)) eqn:Eg; [| discriminate IHg].
    destruct (removeModelFromTree (VArray rest) X) eqn:Ed; [| discriminate IHd].
    cbn [idsStep removeStep bind].
    destruct (nullish children) eqn:En.
    + destruct children; try discriminate En; split; reflexivity.
    + cbn [orb] in Hc. destruct (IHc Hc) as [IHcg IHcd].
      destruct (getPinnedModelIds children); [| discriminate IHcg].
      destruct (removeModelFromTree children X); [| discriminate IHcd].
      cbn [bind]. destruct (truthy children), (Nat.ltb _ _); split; reflexivity.
Qed.

(** Non-iterable [children] make all three throw. *)
Lemma malformed_tree_throws :
  getPinnedModelIds
    (VArray [VObject (Some (VNumber 5)) [("name", VString "G")]])
  = Throw NotIterable
  /\ removeModelFromTree
       (VArray [VObject (Some (VNumber 5)) [("name", VString "G")]]) "x"
     = Throw NotIterable
  /\ addModelToTree (VNumber 5) "x" = Throw NotIterable.
Proof. repeat split. Qed.

(** A null item is skipped by [getPinnedModelIds], which reads
    [item?.children], and makes [removeModelFromTree] throw, which reads
    [item.children]. *)
Lemma null_item_divergence :
  getPinnedModelIds (VArray [VNull; VString "a"]) = Normal ["a"]
  /\ removeModelFromTree (VArray [VNull; VString "a"]) "x"
     = Throw NullishPropertyRead.
Proof. split; reflexivity. Qed.

(** C8, amended.  On an absent argument, and on a string or an array none
    of whose items is null or undefined, the [children] of an object
    being absent, undefined, null or again such a string or array, none
    of the three functions throws.  In any array an object without
    [children] adds nothing to the ids and is dropped by removal, as a
    category with no children would be; an empty array gives an empty
    result. *)
Theorem tolerated_trees_do_not_throw (items : value) (X : string)
        (Htol : tolerated (or_empty_array items) = true) :
  returns (getPinnedModelIds items) = true
  /\ returns (removeModelFromTree items X) = true
  /\ returns (addModelToTree items X) = true
  /\ (forall before others after,
        getPinnedModelIds (VArray (before ++ VObject None others :: after))
        = getPinnedModelIds (VArray (before ++ after))
        /\ removeModelFromTree
             (VArray (before ++ VObject None others :: after)) X
           = removeModelFromTree (VArray (before ++ after)) X)
  /\ getPinnedModelIds (VArray []) = Normal []
  /\ removeModelFromTree (VArray []) X = Normal [].
Proof.
  split; [| split; [| split; [| split; [| split; reflexivity]]]].
  - destruct items; try discriminate Htol; try reflexivity.
    now apply (tolerated_returns X).
  - destruct items; try discriminate Htol; try reflexivity.
    now apply (tolerated_returns X).
  - destruct items; try discriminate Htol; reflexivity.
  - intros before others after. split.
    + rewrite !getPinnedModelIds_concat, getPinnedModelIds_cons.
      cbn [idsStep bind app]. now destruct (getPinnedModelIds (VArray after)).
    + rewrite !removeModelFromTree_concat, removeModelFromTree_cons.
      cbn [removeStep bind app].
      now destruct (removeModelFromTree (VArray after) X).
Qed.

Lemma tolerated_trees_do_not_throw_witness :
  let items :=
    VArray [VString "a";
            VNumber 7;
            VObject None [("name", VString "E")];
            VObject (Some VNull) [("name", VString "N")];
            VObject (Some (VArray [VString "b"; VObject None []]))
                    [("name", VString "G")]] in
  tolerated (or_empty_array items) = true
  /\ returns (getPinnedModelIds items) = true
  /\ returns (removeModelFromTree items "b") = true
  /\ returns (addModelToTree items "b") = true.
Proof.
  intros items. split; [reflexivity |].
  pose proof (tolerated_trees_do_not_throw items "b" eq_refl) as H.
  destruct H as (Hg & Hr & Ha & _). repeat split; assumption.
Defined.

(** *** What removal keeps of a category *)

Lemma node_at_cons d n item rest :
  node_at d n (VArray (item :: rest)) <->
  (d = 0 /\ n = item)
  \/ (exists d' children others,
        d = S d' /\ item = VObject (Some children) others
        /\ node_at d' n children)
  \/ node_at d n (VArray rest).
Proof.
  split.
  - intros H. inversion H as [elems n' Hin | d' elems n' c o Hin Hn]; subst.
    + destruct Hin as [<-|Hin]; [left; now split | right; right].
      now constructor.
    + destruct Hin as [->|Hin].
      * right; left. now exists d', c, o.
      * right; right. now apply (node_below _ _ _ c o).
  - intros [[-> ->] | [(d' & c & o & -> & -> & Hn) | H]].
    + constructor. now left.
    + apply (node_below _ _ _ c o); [now left | exact Hn].
    + inversion H as [elems n' Hin | d' elems n' c o Hin Hn]; subst.
      * constructor. now right.
      * apply (node_below _ _ _ c o); [now right | exact Hn].
Qed.

Lemma node_at_nil d n : ~ node_at d n (VArray []).
Proof. intros H. inversion H; subst; contradiction. Qed.

Lemma node_at_strings d n l : node_at d n (VArray (map VString l)) ->
  exists s, n = VString s.
Proof.
  intros H. inversion H as [elems n' Hin | d' elems n' c o Hin Hn]; subst;
    apply in_map_iff in Hin; destruct Hin as (s & Hs & _).
  - now exists s.
  - discriminate Hs.
Qed.

(** C9.  A category node of the result, at any depth, stems from a
    category node of the input at the same depth with the same
    properties other than [children] (its [name] among them); its
    [children] are the non-empty result of removal on the input node's
    [children]. *)
Theorem removeModelFromTree_keeps_other_fields
        (items : value) (X : string) (out : list value) (d : nat)
        (children' : option value) (others : list (string * value))
        (Hrun : removeModelFromTree items X = Normal out)
        (Hnode : node_at d (VObject children' others) (VArray out)) :
  exists children kept,
    node_at d (VObject (Some children) others) items
    /\ removeModelFromTree children X = Normal kept
    /\ kept <> []
    /\ children' = Some (VArray kept).
Proof.
  revert out d Hrun Hnode.
  induction items as [v Hv | | item rest Hitem IH | children others0 rest IHc IHr]
    using value_tree_ind; intros out d Hrun Hnode.
  - destruct v; try discriminate Hrun.
    + injection Hrun as <-. now apply node_at_nil in Hnode.
    + injection Hrun as <-. apply node_at_strings in Hnode.
      destruct Hnode as (s' & Hs). discriminate Hs.
    + now contradiction (Hv elems).
  - injection Hrun as <-. now apply node_at_nil in Hnode.
  - rewrite removeModelFromTree_cons in Hrun.
    destruct (removeModelFromTree (VArray rest) X) as [more|e] eqn:Erest.
    2:{ destruct (removeStep _ X (Normal []) item); discriminate Hrun. }
    assert (Hmore : node_at d (VObject children' others) (VArray more)).
    { destruct item as [| | | | s | elems | [children|] others1];
        cbn [removeStep bind] in Hrun; try discriminate Hrun;
        try (injection Hrun as <-; exact Hnode).
      - destruct (negb _); cbn [bind] in Hrun; injection Hrun as <-;
          [| exact Hnode].
        apply node_at_cons in Hnode.
        destruct Hnode as [[_ H] | [(d' & c & o & _ & H & _) | H]];
          [discriminate H | discriminate H | exact H].
      - now contradiction (Hitem children others1). }
    destruct (IH more d eq_refl Hmore) as (children & kept & Hn & Hk & Hne & Hc).
    exists children, kept. repeat split; try assumption.
    apply node_at_cons. now right; right.
  - rewrite removeModelFromTree_cons in Hrun.
    destruct (removeModelFromTree (VArray rest) X) as [more|e] eqn:Erest.
    2:{ destruct (removeStep _ X (Normal []) _); discriminate Hrun. }
    assert (Hlift : node_at d (VObject children' others) (VArray more) ->
                    exists children1 kept,
                      node_at d (VObject (Some children1) others)
                              (VArray (VObject (Some children) others0 :: rest))
                      /\ removeModelFromTree children1 X = Normal kept
                      /\ kept <> []
                      /\ children' = Some (VArray kept)).
    { intros Hmore.
      destruct (IHr more d eq_refl Hmore) as (c1 & kept & Hn & Hk & Hne & Hc).
      exists c1, kept. repeat split; try assumption.
      apply node_at_cons. now right; right. }
    cbn [removeStep bind] in Hrun.
    destruct (nullish children).
    { injection Hrun as <-. now apply Hlift. }
    destruct (removeModelFromTree children X) as [kept|e] eqn:Ekept;
      [| discriminate Hrun].
    cbn [bind] in Hrun.
    destruct (Nat.ltb 0 (List.length kept)) eqn:Elen;
      cbn [bind] in Hrun; injection Hrun as <-; [| now apply Hlift].
    cbn [app] in Hnode. apply node_at_cons in Hnode.
    destruct Hnode as [[-> H] | [(d' & c & o & -> & H & Hn) | H]].
    + injection H as -> ->.
      exists children, kept.
      split; [constructor; now left |].
      split; [exact Ekept |].
      split; [| reflexivity].
      intros ->. discriminate Elen.
    + injection H as <- <-.
      destruct (IHc kept d' eq_refl Hn) as (c1 & k1 & Hn1 & Hk1 & Hne1 & Hc1).
      exists c1, k1. repeat split; try assumption.
      apply node_at_cons. right; left.
      now exists d', children, others0.
    + now apply Hlift.
Qed.

Lemma removeModelFromTree_keeps_other_fields_witness :
  exists children kept,
    node_at 0
      (VObject (Some children) [("name", VString "G"); ("icon", VString "star")])
      (VArray [VString "a";
               VObject (Some (VArray [VString "b"; VString "c"]))
                       [("name", VString "G"); ("icon", VString "star")]])
    /\ removeModelFromTree children "b" = Normal kept
    /\ kept <> []
    /\ Some (VArray [VString "c"]) = Some (VArray kept).
Proof.
  apply (removeModelFromTree_keeps_other_fields
           (VArray [VString "a";
                    VObject (Some (VArray [VString "b"; VString "c"]))
                            [("name", VString "G"); ("icon", VString "star")]])
           "b"
           [VString "a";
            VObject (Some (VArray [VString "c"]))
                    [("name", VString "G"); ("icon", VString "star")]]
           0).
  - reflexivity.
  - constructor. simpl. right. left. reflexivity.
Defined.

End RuntimeFacts.


(** ** The worker *)

Module PdfWorkerFacts.
Import PdfWorker.

#[local] Open Scope Z_scope.

Lemma append_nil_r (s : string) : (s ++ "")%string = s.
Proof. induction s as [|c s IH]; simpl; [reflexivity | now rewrite IH]. Qed.

Lemma append_assoc (a b c : string) :
  ((a ++ b) ++ c)%string = (a ++ (b ++ c))%string.
Proof. induction a as [|x a IH]; simpl; [reflexivity | now rewrite IH]. Qed.

(** The count of rounds is the loop test: a round is left exactly when
    [pageNum <= pdf.numPages], and the next page has one round less. *)
Lemma rounds_test pdf pageNum :
  match rounds pdf pageNum with
  | O => ~ pageNum <= numPages pdf
  | S n => pageNum <= numPages pdf /\ rounds pdf (pageNum + 1) = n
  end.
Proof.
  unfold rounds. destruct (Z.to_nat (numPages pdf + 1 - pageNum)) eqn:E; lia.
Qed.

Lemma extract_fine_tail pdf first fragments pages :
  extract_fine pdf first (fragments :: pages) ->
  extract_fine pdf (first + 1) pages.
Proof.
  intros H i fs Hi. destruct (H (S i) fs Hi) as (page & content & Hp & Hc).
  exists page, content. split; [| exact Hc].
  rewrite <- Hp. f_equal. lia.
Qed.

(** The loop over a run of pages that extract fine. *)
Lemma pageLoop_prefix pdf pages :
  forall n first text tr,
    extract_fine pdf first pages ->
    pageLoop pdf (List.length pages + n) first text tr
    = pageLoop pdf n (first + Z.of_nat (List.length pages))
               (text ++ concat_texts (map page_text pages))%string
               (tr ++ page_events (numPages pdf) first pages).
Proof.
  induction pages as [|fragments pages IH]; intros n first text tr Hfine.
  - simpl. now rewrite Z.add_0_r, append_nil_r, app_nil_r.
  - destruct (Hfine O fragments eq_refl) as (page & content & Hp & Hc & Hs).
    rewrite Z.add_0_r in Hp.
    cbn [List.length Nat.add pageLoop]. unfold bind at 1, await at 1.
    rewrite Hp. unfold bind at 1, await at 1. rewrite Hc, Hs.
    unfold bind at 1, postMessage at 1.
    rewrite (IH n (first + 1)); [| now apply extract_fine_tail in Hfine].
    cbn [map concat_texts fold_right page_events].
    fold (concat_texts (map page_text pages)). fold (page_text fragments).
    rewrite append_assoc, <- !app_assoc. cbn [app].
    replace (first + 1 + Z.of_nat (List.length pages))
      with (first + Z.of_nat (S (List.length pages))) by lia.
    reflexivity.
Qed.

Lemma posted_app xs ys : posted (xs ++ ys) = posted xs ++ posted ys.
Proof. unfold posted. apply flat_map_app. Qed.

Lemma posted_page_events total pages :
  forall first,
    posted (page_events total first pages)
    = map (fun p => Progress p total) (page_numbers first (List.length pages)).
Proof.
  induction pages as [|fragments pages IH]; intro first; simpl;
    [reflexivity | now rewrite <- IH].
Qed.

(** The run, once parsing has succeeded and a run of pages from page 1
    on extracts fine. *)
Lemma onmessage_prefix getDocument arrayBuffer pdf pages n :
  getDocument arrayBuffer = Fulfilled pdf ->
  extract_fine pdf 1 pages ->
  rounds pdf 1 = (List.length pages + n)%nat ->
  onmessage getDocument arrayBuffer []
  = try_catch
      (fun tr =>
         bind (pageLoop pdf n (1 + Z.of_nat (List.length pages))
                        (concat_texts (map page_text pages)))
              (fun text => postMessage (Done text)) tr)
      (fun error => postMessage (Error (error_text error)))
      (CallGetDocument arrayBuffer :: page_events (numPages pdf) 1 pages).
Proof.
  intros Hdoc Hfine Hrounds.
  unfold onmessage, try_catch. unfold bind at 1. unfold await at 1.
  rewrite Hdoc, Hrounds. unfold bind.
  rewrite (pageLoop_prefix pdf pages n 1 "" _ Hfine).
  reflexivity.
Qed.

(** C4.  When the library parses the buffer into [N] pages with given
    fragments, the worker fetches and extracts pages [1 .. N] one after
    the other, posts after each page one progress message with that page
    number and [N], and ends with one done message whose text is the
    texts of the pages in order, each the page's fragments joined by
    single spaces and followed by a newline. *)
Theorem worker_extracts_pages_in_order
        (getDocument : Library) (arrayBuffer : ArrayBuffer)
        (pages : list (list string))
        (Hparse : parses_into getDocument arrayBuffer pages) :
  let N := Z.of_nat (List.length pages) in
  let text := concat_texts (map page_text pages) in
  trace getDocument arrayBuffer
  = CallGetDocument arrayBuffer :: page_events N 1 pages ++ [Post (Done text)]
  /\ messages getDocument arrayBuffer
     = map (fun p => Progress p N) (page_numbers 1 (List.length pages))
       ++ [Done text]
  /\ snd (onmessage getDocument arrayBuffer []) = Fulfilled tt.
Proof.
  destruct Hparse as (pdf & Hdoc & Hn & Hfine). intros N text.
  assert (Hrounds : rounds pdf 1 = (List.length pages + 0)%nat)
    by (unfold rounds; lia).
  assert (Hrun : onmessage getDocument arrayBuffer []
                 = (CallGetDocument arrayBuffer :: page_events N 1 pages
                      ++ [Post (Done text)], Fulfilled tt)).
  { rewrite (onmessage_prefix _ _ pdf pages 0%nat Hdoc Hfine Hrounds).
    subst N. now rewrite Hn. }
  unfold messages, trace. rewrite Hrun. cbn [fst snd].
  repeat split.
  change (CallGetDocument arrayBuffer :: page_events N 1 pages ++ [Post (Done text)])
    with ([CallGetDocument arrayBuffer] ++ page_events N 1 pages ++ [Post (Done text)]).
  now rewrite !posted_app, posted_page_events.
Qed.

Lemma worker_extracts_pages_in_order_witness :
  parses_into three_pages [] [["Hello"; "world"]; []; ["end"]]
  /\ messages three_pages []
     = [Progress 1 3; Progress 2 3; Progress 3 3;
        Done ("Hello world" ++ newline ++ newline ++ "end" ++ newline)].
Proof.
  assert (H : parses_into three_pages [] [["Hello"; "world"]; []; ["end"]]).
  { eexists. split; [reflexivity |]. split; [reflexivity |].
    intros i fragments Hi.
    destruct i as [|[|[|i]]]; cbn in Hi; try (now destruct i);
      injection Hi as <-; eexists; eexists; repeat split. }
  split; [exact H |].
  exact (proj1 (proj2 (worker_extracts_pages_in_order _ _ _ H))).
Defined.

(** C10.  For a document of zero pages the worker posts no progress
    message and exactly one done message, whose text is empty. *)
Theorem worker_on_empty_document
        (getDocument : Library) (arrayBuffer : ArrayBuffer)
        (pdf : PDFDocumentProxy)
        (Hdoc : getDocument arrayBuffer = Fulfilled pdf)
        (Hzero : numPages pdf = 0) :
  messages getDocument arrayBuffer = [Done ""]
  /\ filter is_progress (messages getDocument arrayBuffer) = []
  /\ trace getDocument arrayBuffer
     = [CallGetDocument arrayBuffer; Post (Done "")].
Proof.
  assert (Hfine : extract_fine pdf 1 []) by (intros [|i] fs Hi; discriminate Hi).
  assert (Hrounds : rounds pdf 1 = (List.length (@nil (list string)) + 0)%nat)
    by (unfold rounds; simpl; lia).
  unfold messages, trace.
  rewrite (onmessage_prefix _ _ pdf [] 0%nat Hdoc Hfine Hrounds).
  repeat split.
Qed.

Lemma worker_on_empty_document_witness :
  messages empty_document [] = [Done ""]
  /\ filter is_progress (messages empty_document []) = []
  /\ trace empty_document [] = [CallGetDocument []; Post (Done "")].
Proof.
  apply (worker_on_empty_document empty_document [] _ eq_refl). reflexivity.
Defined.

(** *** Failure *)

Lemma page_events_in total pages :
  forall first ev,
    In ev (page_events total first pages) ->
    exists p,
      first <= p < first + Z.of_nat (List.length pages)
      /\ (ev = CallGetPage p \/ ev = CallGetTextContent p
          \/ ev = Post (Progress p total)).
Proof.
  induction pages as [|fragments pages IH]; intros first ev Hin;
    [contradiction Hin |].
  cbn [page_events app List.length] in Hin |- *.
  destruct Hin as [<- | [<- | [<- | Hin]]];
    try (exists first; split; [lia | tauto]).
  destruct (IH _ _ Hin) as (p & Hp & Hev).
  exists p. split; [lia | exact Hev].
Qed.

Lemma page_events_NoDup total pages :
  forall first, NoDup (page_events total first pages).
Proof.
  induction pages as [|fragments pages IH]; intros first; [constructor |].
  cbn [page_events app].
  assert (Hfresh : forall ev,
             ev = CallGetPage first \/ ev = CallGetTextContent first
             \/ ev = Post (Progress first total) ->
             ~ In ev (page_events total (first + 1) pages)).
  { intros ev Hev Hin. destruct (page_events_in _ _ _ _ Hin) as (p & Hp & Hq).
    destruct Hev as [-> | [-> | ->]]; destruct Hq as [Hq | [Hq | Hq]];
      try discriminate Hq; injection Hq; lia. }
  constructor.
  { intros [H | [H | H]]; [discriminate H | discriminate H |].
    revert H. apply Hfresh. tauto. }
  constructor.
  { intros [H | H]; [discriminate H |]. revert H. apply Hfresh. tauto. }
  constructor; [apply Hfresh; tauto | apply IH].
Qed.

Lemma filter_progress (f : Message -> bool) total pageNums :
  (forall p t, f (Progress p t) = false) ->
  filter f (map (fun p => Progress p total) pageNums) = [].
Proof.
  intros Hf. induction pageNums as [|p ps IH]; [reflexivity |].
  simpl. now rewrite Hf.
Qed.

Lemma failed_run getDocument arrayBuffer before calls e :
  fails_with getDocument arrayBuffer before calls e ->
  exists total,
    onmessage getDocument arrayBuffer []
    = (CallGetDocument arrayBuffer :: page_events total 1 before
         ++ calls ++ [Post (Error (error_text e))],
       Fulfilled tt)
    /\ posted calls = []
    /\ (forall ev, In ev calls ->
                   exists p, 1 + Z.of_nat (List.length before) <= p
                             /\ (ev = CallGetPage p \/ ev = CallGetTextContent p))
    /\ NoDup calls.
Proof.
  intros [e' Hdoc | pdf before' k calls' e' Hdoc Hk Hle Hfine Hpage].
  - exists 0. unfold onmessage, try_catch, bind, await. rewrite Hdoc.
    repeat split; [intros ev [] | constructor].
  - exists (numPages pdf).
    assert (Hrounds : rounds pdf 1
                      = (List.length before' + S (Z.to_nat (numPages pdf - k)))%nat)
      by (unfold rounds; lia).
    rewrite (onmessage_prefix _ _ pdf before' _ Hdoc Hfine Hrounds).
    rewrite <- Hk. unfold try_catch. cbn [pageLoop].
    unfold bind at 1 2. unfold await at 1.
    destruct Hpage as [[Hp ->] | (page & Hp & Hc & ->)]; rewrite Hp.
    + unfold postMessage. rewrite <- app_assoc. cbn [app].
      repeat split.
      * intros ev [<- | []]. exists k. split; [lia | now left].
      * repeat constructor. intros [].
    + unfold bind at 1. unfold await at 1. rewrite Hc.
      unfold postMessage. rewrite <- !app_assoc. cbn [app].
      repeat split.
      * intros ev [<- | [<- | []]]; exists k; (split; [lia | tauto]).
      * repeat constructor; [intros [H | []]; discriminate H | intros []].
Qed.

(** Every run is of one of the two kinds: all the pages the loop asks
    for extract fine, or the run meets a first failure. *)
Lemma extract_fine_snoc pdf pages page content :
  extract_fine pdf 1 pages ->
  getPage pdf (1 + Z.of_nat (List.length pages)) = Fulfilled page ->
  getTextContent page = Fulfilled content ->
  extract_fine pdf 1 (pages ++ [map str (items content)]).
Proof.
  intros Hfine Hp Hc i fragments Hi.
  destruct (Nat.lt_ge_cases i (List.length pages)) as [Hlt | Hge].
  - rewrite nth_error_app1 in Hi by exact Hlt. now apply Hfine.
  - rewrite nth_error_app2 in Hi by exact Hge.
    destruct (i - List.length pages)%nat as [|j] eqn:Ej.
    + injection Hi as <-. exists page, content.
      replace i with (List.length pages) by lia. now repeat split.
    + destruct j; discriminate Hi.
Qed.

Lemma run_dichotomy getDocument arrayBuffer :
  (exists pdf pages,
      getDocument arrayBuffer = Fulfilled pdf
      /\ rounds pdf 1 = List.length pages
      /\ extract_fine pdf 1 pages)
  \/ (exists before calls e, fails_with getDocument arrayBuffer before calls e).
Proof.
  destruct (getDocument arrayBuffer) as [pdf|e] eqn:Hdoc;
    [| right; exists [], [], e; now constructor].
  assert (Hsteps : forall m, (m <= rounds pdf 1)%nat ->
             (exists pages, List.length pages = m /\ extract_fine pdf 1 pages)
             \/ (exists before calls e,
                    fails_with getDocument arrayBuffer before calls e)).
  { induction m as [|m IH]; intros Hm.
    - left. exists []. split; [reflexivity |]. intros [|i] fs Hi; discriminate Hi.
    - destruct IH as [(pages & Hlen & Hfine) | Hfail]; [lia | | now right].
      set (k := 1 + Z.of_nat (List.length pages)).
      assert (Hk : k <= numPages pdf) by (unfold rounds in Hm; lia).
      destruct (getPage pdf k) as [page|e] eqn:Hp.
      + destruct (getTextContent page) as [content|e] eqn:Hc.
        * left. exists (pages ++ [map str (items content)]). split.
          -- rewrite length_app. simpl. lia.
          -- now apply (extract_fine_snoc pdf pages page content).
        * right. exists pages, [CallGetPage k; CallGetTextContent k], e.
          apply (page_fails _ _ pdf pages k); try assumption; [reflexivity |].
          right. now exists page.
      + right. exists pages, [CallGetPage k], e.
        apply (page_fails _ _ pdf pages k); try assumption; [reflexivity |].
        now left. }
  destruct (Hsteps (rounds pdf 1) (Nat.le_refl _)) as [(pages & Hlen & Hfine) | Hfail].
  - left. now exists pdf, pages.
  - now right.
Qed.

(** C5.  When parsing or the extraction of a page fails, the worker
    catches the failure and posts one error message with the text of the
    error, after the progress messages of the pages already extracted.
    It posts no done message, and the error message ends the run: each
    library call occurs once in the trace, the failed one last. *)
Theorem worker_reports_failure_once
        (getDocument : Library) (arrayBuffer : ArrayBuffer)
        (before : list (list string)) (calls : list Event) (e : ErrorObject)
        (Hfail : fails_with getDocument arrayBuffer before calls e) :
  exists total,
    trace getDocument arrayBuffer
    = CallGetDocument arrayBuffer :: page_events total 1 before
        ++ calls ++ [Post (Error (error_text e))]
    /\ messages getDocument arrayBuffer
       = map (fun p => Progress p total) (page_numbers 1 (List.length before))
         ++ [Error (error_text e)]
    /\ filter is_error (messages getDocument arrayBuffer)
       = [Error (error_text e)]
    /\ filter is_done (messages getDocument arrayBuffer) = []
    /\ NoDup (trace getDocument arrayBuffer)
    /\ snd (onmessage getDocument arrayBuffer []) = Fulfilled tt.
Proof.
  destruct (failed_run _ _ _ _ _ Hfail) as (total & Hrun & Hposted & Hcalls & Hnd).
  exists total. unfold messages, trace. rewrite Hrun. cbn [fst snd].
  assert (Hmsgs : posted (CallGetDocument arrayBuffer :: page_events total 1 before
                            ++ calls ++ [Post (Error (error_text e))])
                  = map (fun p => Progress p total)
                        (page_numbers 1 (List.length before))
                    ++ [Error (error_text e)]).
  { change (CallGetDocument arrayBuffer :: page_events total 1 before
              ++ calls ++ [Post (Error (error_text e))])
      with ([CallGetDocument arrayBuffer] ++ page_events total 1 before
              ++ calls ++ [Post (Error (error_text e))]).
    now rewrite !posted_app, posted_page_events, Hposted. }
  split; [reflexivity |]. split; [exact Hmsgs |]. rewrite Hmsgs.
  split; [rewrite filter_app, filter_progress; reflexivity |].
  split; [rewrite filter_app, filter_progress; reflexivity |].
  split; [| reflexivity].
  constructor.
  - intros Hin. apply in_app_or in Hin. destruct Hin as [Hin | Hin].
    + destruct (page_events_in _ _ _ _ Hin) as (p & _ & [H | [H | H]]);
        discriminate H.
    + apply in_app_or in Hin. destruct Hin as [Hin | [H | []]];
        [| discriminate H].
      destruct (Hcalls _ Hin) as (p & _ & [H | H]); discriminate H.
  - apply NoDup_app; [apply page_events_NoDup | |].
    + apply NoDup_app; [exact Hnd | repeat constructor; intros [] |].
      intros ev Hin [<- | []].
      destruct (Hcalls _ Hin) as (p & _ & [H | H]); discriminate H.
    + intros ev Hin Hin'.
      destruct (page_events_in _ _ _ _ Hin) as (p & Hp & Hev).
      apply in_app_or in Hin'. destruct Hin' as [Hin' | [<- | []]].
      * destruct (Hcalls _ Hin') as (q & Hq & Hev').
        destruct Hev as [-> | [-> | ->]]; destruct Hev' as [H | H];
          try discriminate H; injection H; lia.
      * destruct Hev as [H | [H | H]]; discriminate H.
Qed.

Lemma worker_reports_failure_once_witness :
  fails_with second_page_unreadable [] [["text"]]
             [CallGetPage 2; CallGetTextContent 2]
             {| name := "UnknownErrorException"; message := "" |}
  /\ exists total,
       trace second_page_unreadable []
       = CallGetDocument [] :: page_events total 1 [["text"]]
           ++ [CallGetPage 2; CallGetTextContent 2]
           ++ [Post (Error "UnknownErrorException")]
       /\ messages second_page_unreadable []
          = [Progress 1 total; Error "UnknownErrorException"]
       /\ filter is_error (messages second_page_unreadable [])
          = [Error "UnknownErrorException"]
       /\ filter is_done (messages second_page_unreadable []) = []
       /\ NoDup (trace second_page_unreadable [])
       /\ snd (onmessage second_page_unreadable [] []) = Fulfilled tt.
Proof.
  assert (H : fails_with second_page_unreadable [] [["text"]]
                         [CallGetPage 2; CallGetTextContent 2]
                         {| name := "UnknownErrorException"; message := "" |}).
  { eapply page_fails with (k := 2).
    - reflexivity.
    - reflexivity.
    - cbn. lia.
    - intros [|[|i]] fragments Hi; try discriminate Hi.
      injection Hi as <-. eexists; eexists; repeat split.
    - right. eexists. repeat split. }
  split; [exact H |].
  exact (worker_reports_failure_once _ _ _ _ _ H).
Defined.

(** The other two ways to fail: parsing rejects; a message is passed on
    as it is. *)
Example not_a_pdf_run :
  trace not_a_pdf []
  = [CallGetDocument []; Post (Error "Invalid PDF structure.")].
Proof. reflexivity. Qed.

Example second_page_unreadable_run :
  messages second_page_unreadable []
  = [Progress 1 3; Error "UnknownErrorException"].
Proof. reflexivity. Qed.

End PdfWorkerFacts.


(** ** More on the typed tree utilities *)

Module TreeLaws.
Import PinnedModels PinnedModelsFacts.

#[local] Hint Rewrite getPinnedModelIds_nil getPinnedModelIds_leaf
  getPinnedModelIds_category removeModelFromTree_nil
  removeModelFromTree_leaf removeModelFromTree_category : tree.

(** X1.  Removing two ids gives the same tree in either order. *)
Theorem removeModelFromTree_commutes (T : list PinnedItem) (X Y : string) :
  removeModelFromTree (removeModelFromTree T X) Y
  = removeModelFromTree (removeModelFromTree T Y) X.
Proof.
  induction T as [| s rest IH | name children rest IHc IHr] using tree_ind;
    autorewrite with tree.
  - reflexivity.
  - destruct (String.eqb s X) eqn:EX, (String.eqb s Y) eqn:EY;
      autorewrite with tree; rewrite ?EX, ?EY, IH; reflexivity.
  - destruct (removeModelFromTree children X) as [|a A] eqn:EA,
             (removeModelFromTree children Y) as [|b B] eqn:EB.
    + exact IHr.
    + rewrite removeModelFromTree_category, <- IHc. exact IHr.
    + rewrite removeModelFromTree_category, IHc. exact IHr.
    + rewrite !removeModelFromTree_category, IHc, IHr. reflexivity.
Qed.

(** X2.  Removal after an addition: removing the id just added undoes
    the addition along with every other occurrence; removing another id
    leaves the added leaf last. *)
Theorem remove_after_add (T : list PinnedItem) (X Y : string) :
  removeModelFromTree (addModelToTree T X) Y
  = if String.eqb X Y
    then removeModelFromTree T Y
    else addModelToTree (removeModelFromTree T Y) X.
Proof.
  unfold addModelToTree. rewrite removeModelFromTree_app.
  autorewrite with tree.
  destruct (String.eqb X Y); [apply app_nil_r | reflexivity].
Qed.

(** X3.  Both functions work item by item: cutting the list anywhere and
    putting the results of the parts together gives the result of the
    whole. *)
Theorem tree_functions_distribute (A B : list PinnedItem) (X : string) :
  getPinnedModelIds (A ++ B) = getPinnedModelIds A ++ getPinnedModelIds B
  /\ removeModelFromTree (A ++ B) X
     = removeModelFromTree A X ++ removeModelFromTree B X.
Proof.
  split; [apply getPinnedModelIds_app | apply removeModelFromTree_app].
Qed.

Lemma NoDup_map_filter {A B} (f : A -> B) (keep : A -> bool) (l : list A) :
  NoDup (map f l) -> NoDup (map f (filter keep l)).
Proof.
  induction l as [|a l IH]; simpl; intros H; [constructor |].
  apply NoDup_cons_iff in H. destruct H as [Hin Hnd].
  destruct (keep a); simpl; [| now apply IH].
  constructor; [| now apply IH].
  intros H. apply Hin. apply in_map_iff in H. destruct H as (x & Hx & Hf).
  apply in_map_iff. exists x. split; [exact Hx |].
  apply filter_In in Hf. tauto.
Qed.

Lemma removed_keys T X :
  map Sidebar.each_key (removeModelFromTree T X)
  = map Sidebar.each_key (filter (Sidebar.survives X) T).
Proof.
  induction T as [|item rest IH]; [reflexivity |].
  change (item :: rest) with ([item] ++ rest) at 1.
  rewrite removeModelFromTree_app, map_app, IH.
  destruct item as [s | name children]; cbn [filter Sidebar.survives];
    autorewrite with tree.
  - now destruct (String.eqb s X).
  - now destruct (removeModelFromTree children X).
Qed.

(** X4.  At the top level removal keeps, in their order and under their
    keys, exactly the leaves other than the id and the categories that
    keep a child; so keys that were distinct stay distinct. *)
Theorem removal_keeps_order_and_keys (T : list PinnedItem) (X : string) :
  map Sidebar.each_key (removeModelFromTree T X)
  = map Sidebar.each_key (filter (Sidebar.survives X) T)
  /\ (NoDup (map Sidebar.each_key T) ->
      NoDup (map Sidebar.each_key (removeModelFromTree T X))).
Proof.
  split; [apply removed_keys |].
  intros H. rewrite removed_keys. now apply NoDup_map_filter.
Qed.

Lemma removal_keeps_order_and_keys_witness :
  map Sidebar.each_key
      (removeModelFromTree
         [Leaf "a"; Category "G" [Leaf "b"]; Leaf "b"; Category "H" [Leaf "c"]]
         "b")
  = ["a"; "H"]
  /\ NoDup (map Sidebar.each_key
                (removeModelFromTree
                   [Leaf "a"; Category "G" [Leaf "b"]; Leaf "b";
                    Category "H" [Leaf "c"]] "b")).
Proof.
  destruct (removal_keeps_order_and_keys
              [Leaf "a"; Category "G" [Leaf "b"]; Leaf "b";
               Category "H" [Leaf "c"]] "b") as [Hkeys Hnodup].
  split; [exact Hkeys | apply Hnodup].
  repeat constructor; simpl; intuition discriminate.
Defined.

End TreeLaws.


(** ** More on the tree utilities over untyped values *)

Module RuntimeLaws.
Import Js Runtime RuntimeFacts.

#[local] Notation "x <- c ;; k" := (bind c (fun x => k))
  (at level 61, c at next level, right associativity).

(** X5.  On a well-typed tree none of the three functions throws; each
    returns the image of what the typed function returns, so the results
    of removal and addition are well-typed trees again. *)
Theorem typed_trees_never_throw (T : list PinnedModels.PinnedItem) (X : string) :
  getPinnedModelIds (encode T) = Normal (PinnedModels.getPinnedModelIds T)
  /\ removeModelFromTree (encode T) X
     = Normal (map encode_item (PinnedModels.removeModelFromTree T X))
  /\ addModelToTree (encode T) X
     = Normal (map encode_item (PinnedModels.addModelToTree T X)).
Proof.
  split; [apply getPinnedModelIds_agrees |].
  split; [apply removeModelFromTree_agrees | apply addModelToTree_agrees].
Qed.

(** *** Arrays of strings *)

Lemma ids_of_strings l : getPinnedModelIds (VArray (map VString l)) = Normal l.
Proof.
  induction l as [|s l IH]; [reflexivity |].
  cbn [map]. rewrite getPinnedModelIds_cons, IH. reflexivity.
Qed.

Lemma remove_of_strings l X :
  removeModelFromTree (VArray (map VString l)) X
  = Normal (map VString (filter (PinnedModels.differs_from X) l)).
Proof.
  induction l as [|s l IH]; [reflexivity |].
  cbn [map]. rewrite removeModelFromTree_cons, IH.
  cbn [removeStep bind filter]. unfold PinnedModels.differs_from at 2.
  now destruct (negb (String.eqb s X)).
Qed.

Lemma filter_twice {A} (keep : A -> bool) (l : list A) :
  filter keep (filter keep l) = filter keep l.
Proof.
  induction l as [|a l IH]; [reflexivity |].
  cbn [filter]. destruct (keep a) eqn:E; [| exact IH].
  cbn [filter]. now rewrite E, IH.
Qed.

(** *** Errors *)



Lemma remove_throws_at item elems X :
  In item elems ->
  returns (removeStep (fun c => removeModelFromTree c X) X (Normal []) item)
  = false ->
  returns (removeModelFromTree (VArray elems) X) = false.
Proof.
  induction elems as [|a rest IH]; intros Hin Hthrow; [contradiction Hin |].
  rewrite removeModelFromTree_cons.
  destruct Hin as [-> | Hin].
  - now destruct (removeStep _ X (Normal []) item).
  - specialize (IH Hin Hthrow).
    destruct (removeStep _ X (Normal []) a); [| reflexivity].
    now destruct (removeModelFromTree (VArray rest) X).
Qed.

(** X7.  [removeModelFromTree] throws on every tree that holds a null or
    undefined item, at whatever depth. *)
Theorem removeModelFromTree_throws_on_nullish_item
        (items : value) (X : string) (d : nat) (n : value)
        (Hnode : node_at d n items) (Hn : nullish n = true) :
  returns (removeModelFromTree items X) = false.
Proof.
  induction Hnode as [elems n Hin | d elems n children others Hin Hnode IH].
  - apply (remove_throws_at n); [exact Hin |].
    destruct n; try discriminate Hn; reflexivity.
  - apply (remove_throws_at (VObject (Some children) others)); [exact Hin |].
    cbn [removeStep bind]. specialize (IH Hn).
    inversion Hnode; subst; cbn [nullish];
      now destruct (removeModelFromTree (VArray _) X).
Qed.

Lemma removeModelFromTree_throws_on_nullish_item_witness :
  returns
    (removeModelFromTree
       (VArray [VString "a";
                VObject (Some (VArray [VString "b"; VNull]))
                        [("name", VString "G")]]) "a")
  = false.
Proof.
  apply (removeModelFromTree_throws_on_nullish_item _ "a" 1 VNull);
    [| reflexivity].
  eapply node_below; [right; left; reflexivity |].
  apply node_top. right. left. reflexivity.
Defined.

(** *** Removal on arbitrary values *)

Lemma falsy_children_have_no_ids children ids :
  nullish children = false ->
  truthy children = false ->
  getPinnedModelIds children = Normal ids ->
  ids = [].
Proof.
  destruct children as [| | b | n | s | elems | c o]; try discriminate.
  cbn [truthy getPinnedModelIds]. intros _ Hs Hids.
  apply negb_false_iff, String.eqb_eq in Hs. subst s.
  now injection Hids as <-.
Qed.

(** X8.  Whenever [removeModelFromTree] returns, whatever the input
    value, [getPinnedModelIds] returns on the input and on the result,
    and the ids of the result are those of the input without the
    removed id, in the same order. *)
Theorem removed_ids_of_any_value
        (items : value) (X : string) (out : list value)
        (Hrun : removeModelFromTree items X = Normal out) :
  exists ids,
    getPinnedModelIds items = Normal ids
    /\ getPinnedModelIds (VArray out)
       = Normal (filter (PinnedModels.differs_from X) ids).
Proof.
  revert out Hrun.
  induction items as [v Hv | | item rest Hitem IH | children others rest IHc IHr]
    using value_tree_ind; intros out Hrun.
  - destruct v; try discriminate Hrun.
    + injection Hrun as <-. now exists [].
    + injection Hrun as <-. exists (chars s).
      split; [reflexivity | apply ids_of_strings].
    + now contradiction (Hv elems).
  - injection Hrun as <-. now exists [].
  - rewrite removeModelFromTree_cons in Hrun.
    destruct (removeModelFromTree (VArray rest) X) as [more|e] eqn:Erest.
    2:{ destruct (removeStep _ X (Normal []) item); discriminate Hrun. }
    destruct (IH more eq_refl) as (ids & Hids & Hout).
    rewrite getPinnedModelIds_cons, Hids.
    destruct item as [| | | | s | elems | [children|] others];
      cbn [removeStep idsStep bind app] in Hrun |- *;
      try discriminate Hrun;
      try (injection Hrun as <-; now exists ids).
    + exists (s :: ids). split; [reflexivity |].
      cbn [filter]. unfold PinnedModels.differs_from at 1.
      destruct (negb (String.eqb s X)); cbn [bind app] in Hrun;
        injection Hrun as <-; [| exact Hout].
      rewrite getPinnedModelIds_cons, Hout. reflexivity.
    + now contradiction (Hitem children others).
  - rewrite removeModelFromTree_cons in Hrun.
    destruct (removeModelFromTree (VArray rest) X) as [more|e] eqn:Erest.
    2:{ destruct (removeStep _ X (Normal []) _); discriminate Hrun. }
    destruct (IHr more eq_refl) as (ids & Hids & Hout).
    rewrite getPinnedModelIds_cons, Hids.
    cbn [removeStep idsStep bind app] in Hrun |- *.
    destruct (nullish children) eqn:Enull.
    { injection Hrun as <-. exists ids.
      destruct children; try discriminate Enull; now split. }
    destruct (removeModelFromTree children X) as [kept|e] eqn:Ekept;
      [| discriminate Hrun].
    destruct (IHc kept eq_refl) as (sub & Hsub & Hkept).
    cbn [bind] in Hrun.
    assert (Hfront : (if truthy children
                      then sub0 <- getPinnedModelIds children ;;
                           Normal sub0
                      else Normal [])
                     = Normal sub).
    { destruct (truthy children) eqn:Etruthy; [now rewrite Hsub |].
      now rewrite (falsy_children_have_no_ids children sub Enull Etruthy Hsub). }
    rewrite Hfront. cbn [bind]. exists (sub ++ ids).
    split; [reflexivity |]. rewrite filter_app.
    destruct (Nat.ltb 0 (List.length kept)) eqn:Elen;
      cbn [bind app] in Hrun; injection Hrun as <-.
    + rewrite getPinnedModelIds_cons. cbn [idsStep bind truthy].
      rewrite Hkept, Hout. reflexivity.
    + destruct kept; [| discriminate Elen].
      injection Hkept as Hnone. now rewrite <- Hnone.
Qed.

Lemma removed_ids_of_any_value_witness :
  exists ids,
    getPinnedModelIds
      (VArray [VNumber 7; VString "a";
               VObject (Some (VString "ab")) [("name", VString "S")]])
    = Normal ids
    /\ getPinnedModelIds
         (VArray [VObject (Some (VArray [VString "b"])) [("name", VString "S")]])
       = Normal (filter (PinnedModels.differs_from "a") ids).
Proof.
  apply (removed_ids_of_any_value
           (VArray [VNumber 7; VString "a";
                    VObject (Some (VString "ab")) [("name", VString "S")]])
           "a").
  reflexivity.
Defined.

Lemma remove_again (items : value) (X : string) (out : list value) :
  removeModelFromTree items X = Normal out ->
  removeModelFromTree (VArray out) X = Normal out.
Proof.
  intros Hrun. revert out Hrun.
  induction items as [v Hv | | item rest Hitem IH | children others rest IHc IHr]
    using value_tree_ind; intros out Hrun.
  - destruct v; try discriminate Hrun.
    + now injection Hrun as <-.
    + injection Hrun as <-. rewrite remove_of_strings. do 2 f_equal.
      exact (filter_twice (PinnedModels.differs_from X) (chars s)).
    + now contradiction (Hv elems).
  - now injection Hrun as <-.
  - rewrite removeModelFromTree_cons in Hrun.
    destruct (removeModelFromTree (VArray rest) X) as [more|e] eqn:Erest.
    2:{ destruct (removeStep _ X (Normal []) item); discriminate Hrun. }
    specialize (IH more eq_refl).
    destruct item as [| | | | s | elems | [children|] others];
      cbn [removeStep bind app] in Hrun;
      try discriminate Hrun;
      try (injection Hrun as <-; exact IH).
    + destruct (negb (String.eqb s X)) eqn:Es; cbn [bind app] in Hrun;
        injection Hrun as <-; [| exact IH].
      rewrite removeModelFromTree_cons, IH. cbn [removeStep bind].
      now rewrite Es.
    + now contradiction (Hitem children others).
  - rewrite removeModelFromTree_cons in Hrun.
    destruct (removeModelFromTree (VArray rest) X) as [more|e] eqn:Erest.
    2:{ destruct (removeStep _ X (Normal []) _); discriminate Hrun. }
    specialize (IHr more eq_refl).
    cbn [removeStep bind app] in Hrun.
    destruct (nullish children); [injection Hrun as <-; exact IHr |].
    destruct (removeModelFromTree children X) as [kept|e] eqn:Ekept;
      [| discriminate Hrun].
    specialize (IHc kept eq_refl). cbn [bind] in Hrun.
    destruct (Nat.ltb 0 (List.length kept)) eqn:Elen;
      cbn [bind app] in Hrun; injection Hrun as <-; [| exact IHr].
    rewrite removeModelFromTree_cons, IHr. cbn [removeStep bind nullish].
    rewrite IHc. cbn [bind]. now rewrite Elen.
Qed.

Lemma removed_is_tolerated (items : value) (X : string) (out : list value) :
  removeModelFromTree items X = Normal out ->
  tolerated (VArray out) = true.
Proof.
  intros Hrun. revert out Hrun.
  induction items as [v Hv | | item rest Hitem IH | children others rest IHc IHr]
    using value_tree_ind; intros out Hrun.
  - destruct v; try discriminate Hrun.
    + now injection Hrun as <-.
    + injection Hrun as <-. cbn [tolerated].
      apply forallb_forall. intros x Hx. apply in_map_iff in Hx.
      now destruct Hx as (c & <- & _).
    + now contradiction (Hv elems).
  - now injection Hrun as <-.
  - rewrite removeModelFromTree_cons in Hrun.
    destruct (removeModelFromTree (VArray rest) X) as [more|e] eqn:Erest.
    2:{ destruct (removeStep _ X (Normal []) item); discriminate Hrun. }
    specialize (IH more eq_refl).
    destruct item as [| | | | s | elems | [children|] others];
      cbn [removeStep bind app] in Hrun;
      try discriminate Hrun;
      try (injection Hrun as <-; exact IH).
    + destruct (negb (String.eqb s X)); cbn [bind app] in Hrun;
        injection Hrun as <-; exact IH.
    + now contradiction (Hitem children others).
  - rewrite removeModelFromTree_cons in Hrun.
    destruct (removeModelFromTree (VArray rest) X) as [more|e] eqn:Erest.
    2:{ destruct (removeStep _ X (Normal []) _); discriminate Hrun. }
    specialize (IHr more eq_refl).
    cbn [removeStep bind app] in Hrun.
    destruct (nullish children); [injection Hrun as <-; exact IHr |].
    destruct (removeModelFromTree children X) as [kept|e] eqn:Ekept;
      [| discriminate Hrun].
    specialize (IHc kept eq_refl). cbn [bind] in Hrun.
    destruct (Nat.ltb 0 (List.length kept));
      cbn [bind app] in Hrun; injection Hrun as <-; [| exact IHr].
    cbn [tolerated forallb nullish orb] in IHr |- *.
    cbn [tolerated] in IHc. now rewrite IHc, IHr.
Qed.

(** X9.  Whenever [removeModelFromTree] returns, whatever the input
    value, its result is a tree none of the functions throws on, and
    running the removal again on it returns it unchanged. *)
Theorem removal_is_idempotent_on_any_value
        (items : value) (X : string) (out : list value)
        (Hrun : removeModelFromTree items X = Normal out) :
  removeModelFromTree (VArray out) X = Normal out
  /\ tolerated (VArray out) = true
  /\ returns (getPinnedModelIds (VArray out)) = true
  /\ returns (addModelToTree (VArray out) X) = true.
Proof.
  split; [now apply (remove_again items) |].
  pose proof (removed_is_tolerated items X out Hrun) as Htol.
  split; [exact Htol |].
  split; [| reflexivity].
  now apply (tolerated_returns X).
Qed.

Lemma removal_is_idempotent_on_any_value_witness :
  removeModelFromTree
    (VArray [VObject (Some (VArray [VString "b"])) [("name", VString "S")]])
    "a"
  = Normal [VObject (Some (VArray [VString "b"])) [("name", VString "S")]].
Proof.
  apply (removal_is_idempotent_on_any_value
           (VArray [VNumber 7; VString "a";
                    VObject (Some (VString "ab")) [("name", VString "S")]])
           "a"
           [VObject (Some (VArray [VString "b"])) [("name", VString "S")]]).
  reflexivity.
Defined.

(** X23.  Whenever [addModelToTree] returns, whatever the input value,
    the ids of its result are the ids of the input followed by the new
    id; where [getPinnedModelIds] throws on the input it throws on the
    result. *)
Theorem added_ids_of_any_value
        (items : value) (X : string) (out : list value)
        (Hrun : addModelToTree items X = Normal out) :
  getPinnedModelIds (VArray out)
  = ids <- getPinnedModelIds items ;; Normal (ids ++ [X]).
Proof.
  unfold addModelToTree in Hrun.
  destruct items as [| | | | s | elems | c o]; try discriminate Hrun;
    cbn [or_empty_array iterate bind] in Hrun; injection Hrun as <-.
  - reflexivity.
  - rewrite getPinnedModelIds_concat, ids_of_strings. reflexivity.
  - rewrite getPinnedModelIds_concat.
    now destruct (getPinnedModelIds (VArray elems)).
Qed.

Lemma added_ids_of_any_value_witness :
  getPinnedModelIds
    (VArray [VNull; VString "a";
             VObject (Some (VArray [VString "b"])) []; VString "a"])
  = ids <- getPinnedModelIds
             (VArray [VNull; VString "a";
                      VObject (Some (VArray [VString "b"])) []]) ;;
    Normal (ids ++ ["a"]).
Proof.
  apply (added_ids_of_any_value
           (VArray [VNull; VString "a";
                    VObject (Some (VArray [VString "b"])) []]) "a").
  reflexivity.
Defined.

End RuntimeLaws.


(** ** The sidebar *)

From Stdlib Require Import Permutation.

Module SidebarFacts.
Import Js Runtime Sidebar.

(** *** Reordering *)

Lemma split_at {A} (l : list A) (i : nat) :
  (i < List.length l)%nat ->
  exists a x b, l = a ++ x :: b /\ List.length a = i.
Proof.
  intros Hi. destruct (skipn i l) as [|x b] eqn:E.
  - apply (f_equal (@List.length A)) in E. rewrite length_skipn in E.
    simpl in E. lia.
  - exists (firstn i l), x, b. split.
    + now rewrite <- E, firstn_skipn.
    + rewrite length_firstn. lia.
Qed.

Lemma splice_delete_one_at {A} (a : list A) x b :
  splice_delete_one (a ++ x :: b) (List.length a) = (a ++ b, [x]).
Proof.
  unfold splice_delete_one. f_equal.
  - rewrite firstn_app, Nat.sub_diag, firstn_all. cbn [firstn].
    rewrite app_nil_r. f_equal.
    change (S (List.length a)) with (1 + List.length a)%nat.
    rewrite <- (Nat.add_comm (List.length a)).
    replace (a ++ x :: b) with ((a ++ [x]) ++ b) by now rewrite <- app_assoc.
    rewrite skipn_app.
    replace (List.length a + 1)%nat with (List.length (a ++ [x]))
      by (rewrite length_app; reflexivity).
    now rewrite skipn_all, Nat.sub_diag.
  - rewrite skipn_app, skipn_all, Nat.sub_diag. reflexivity.
Qed.

Lemma splice_insert_at {A} (c d : list A) x :
  splice_insert (c ++ d) (List.length c) x = c ++ x :: d.
Proof.
  unfold splice_insert.
  rewrite firstn_app, skipn_app, firstn_all, skipn_all, Nat.sub_diag.
  cbn [firstn skipn app]. now rewrite app_nil_r.
Qed.

Lemma reorder_at (a : list value) x b j :
  reorder (a ++ x :: b) (List.length a) j = splice_insert (a ++ b) j x.
Proof. unfold reorder. now rewrite splice_delete_one_at. Qed.

Lemma splice_insert_perm {A} (l : list A) j x :
  Permutation (x :: l) (splice_insert l j x).
Proof.
  unfold splice_insert. rewrite <- (firstn_skipn j l) at 1.
  apply Permutation_middle.
Qed.

Lemma splice_insert_nth {A} (l : list A) j x d :
  nth (Nat.min j (List.length l)) (splice_insert l j x) d = x.
Proof.
  unfold splice_insert. rewrite <- (length_firstn j l). apply nth_middle.
Qed.

(** X10.  A reorder with [oldIndex] inside the list only rearranges it:
    the result has the same items, as many of each; the moved item sits
    at [newIndex], or last when [newIndex] is past the end; and taking
    it out of the result leaves what taking it out of the input
    leaves, so the other items keep their order. *)
Theorem reorder_moves_one_item
        (pinned : list value) (oldIndex newIndex : nat)
        (Hold : (oldIndex < List.length pinned)%nat) :
  let result := reorder pinned oldIndex newIndex in
  let landed := Nat.min newIndex (List.length pinned - 1) in
  Permutation pinned result
  /\ List.length result = List.length pinned
  /\ nth landed result VUndefined = nth oldIndex pinned VUndefined
  /\ fst (splice_delete_one result landed)
     = fst (splice_delete_one pinned oldIndex).
Proof.
  destruct (split_at pinned oldIndex Hold) as (a & x & b & -> & <-).
  intros result landed. subst result landed.
  rewrite reorder_at, splice_delete_one_at, nth_middle.
  replace (List.length (a ++ x :: b) - 1)%nat with (List.length (a ++ b))
    by (rewrite !length_app; simpl; lia).
  split; [| split; [| split]].
  - transitivity (x :: a ++ b);
      [symmetry; apply Permutation_middle | apply splice_insert_perm].
  - rewrite <- (Permutation_length (splice_insert_perm (a ++ b) newIndex x)).
    simpl. rewrite !length_app. simpl. lia.
  - apply splice_insert_nth.
  - cbn [fst]. unfold splice_insert.
    rewrite <- (length_firstn newIndex (a ++ b)).
    rewrite splice_delete_one_at. cbn [fst]. apply firstn_skipn.
Qed.

Lemma reorder_moves_one_item_witness :
  Permutation [VString "a"; VString "b"; VString "c"]
              (reorder [VString "a"; VString "b"; VString "c"] 0 2)
  /\ reorder [VString "a"; VString "b"; VString "c"] 0 2
     = [VString "b"; VString "c"; VString "a"].
Proof.
  split; [| reflexivity].
  apply (reorder_moves_one_item [VString "a"; VString "b"; VString "c"] 0 2).
  simpl. lia.
Defined.

(** X11.  Dragging an item back undoes the drag: with both indices
    inside the list, the reorder from [newIndex] to [oldIndex] restores
    the list. *)
Theorem reorder_back_restores
        (pinned : list value) (oldIndex newIndex : nat)
        (Hold : (oldIndex < List.length pinned)%nat)
        (Hnew : (newIndex < List.length pinned)%nat) :
  reorder (reorder pinned oldIndex newIndex) newIndex oldIndex = pinned.
Proof.
  destruct (split_at pinned oldIndex Hold) as (a & x & b & -> & <-).
  rewrite reorder_at.
  assert (Hj : (newIndex <= List.length (a ++ b))%nat)
    by (rewrite !length_app in *; simpl in Hnew; lia).
  unfold splice_insert at 1.
  assert (Hlen : List.length (firstn newIndex (a ++ b)) = newIndex)
    by (rewrite length_firstn; lia).
  rewrite <- Hlen at 3. rewrite reorder_at, firstn_skipn.
  apply splice_insert_at.
Qed.

Lemma reorder_back_restores_witness :
  reorder (reorder [VString "a"; VString "b"; VString "c"] 0 2) 2 0
  = [VString "a"; VString "b"; VString "c"].
Proof.
  apply (reorder_back_restores [VString "a"; VString "b"; VString "c"] 0 2);
    simpl; lia.
Defined.

(** *** The handlers and the store *)

Lemma handle_cases token a w :
  (exists pinned, handle token a w = (set_and_persist token pinned w, Finished))
  \/ (exists e, handle token a w = (w, Threw e)).
Proof.
  destruct a as [modelId | oldIndex newIndex]; cbn [handle].
  - unfold unpinModel.
    destruct (removeModelFromTree _ modelId) as [tree|e];
      [left; now exists (VArray tree) | right; now exists (RemovalThrew e)].
  - unfold onUpdate.
    destruct (pinnedModels (store w));
      try (right; eexists; reflexivity).
    left. eexists. reflexivity.
Qed.

Lemma run_cons token a actions w :
  run token (a :: actions) w = run token actions (fst (handle token a w)).
Proof. reflexivity. Qed.

(** X12.  Store and server stay in step: after any sequence of unpins
    and drags, either no handler got through and nothing changed, or
    the last request sent carries exactly the settings the store
    holds.  No handler ever touches the settings other than
    [pinnedModels]. *)
Theorem store_and_server_in_step
        (token : string) (actions : list Action) (w : World) :
  (run token actions w = w \/ synced (run token actions w))
  /\ otherSettings (store (run token actions w)) = otherSettings (store w).
Proof.
  split.
  - revert w. induction actions as [|a actions IH]; intros w; [now left |].
    rewrite run_cons.
    destruct (IH (fst (handle token a w))) as [Hsame | Hsync]; [| now right].
    rewrite Hsame.
    destruct (handle_cases token a w) as [(pinned & ->) | (e & ->)];
      [right | now left].
    cbn [fst]. unfold synced, set_and_persist. cbn [requests store].
    now exists (requests w), token.
  - revert w. induction actions as [|a actions IH]; intros w; [reflexivity |].
    rewrite run_cons, IH.
    now destruct (handle_cases token a w) as [(pinned & ->) | (e & ->)].
Qed.

(** X13.  Unpinning from a well-typed tree: the handler finishes, the
    store holds the tree without the id and the other settings as they
    were, and one request with these settings is added. *)
Theorem unpinModel_on_typed_tree
        (token X : string) (w : World) (T : list PinnedModels.PinnedItem)
        (Hstore : pinnedModels (store w) = encode T) :
  let T' := PinnedModels.removeModelFromTree T X in
  let w' := fst (unpinModel token X w) in
  snd (unpinModel token X w) = Finished
  /\ pinnedModels (store w') = encode T'
  /\ otherSettings (store w') = otherSettings (store w)
  /\ requests w' = requests w ++ [(token, store w')]
  /\ getPinnedModelIds (pinnedModels (store w'))
     = Normal (filter (PinnedModels.differs_from X)
                      (PinnedModels.getPinnedModelIds T)).
Proof.
  intros T' w'. subst T' w'. unfold unpinModel. rewrite Hstore.
  cbn [coalesce encode nullish]. fold (encode T).
  rewrite RuntimeFacts.removeModelFromTree_agrees.
  cbn [fst snd set_and_persist store pinnedModels otherSettings requests].
  repeat split.
  fold (encode (PinnedModels.removeModelFromTree T X)).
  now rewrite RuntimeFacts.getPinnedModelIds_agrees, PinnedModelsFacts.removed_ids.
Qed.

Lemma unpinModel_on_typed_tree_witness :
  let w := {| store := {| pinnedModels :=
                            encode [PinnedModels.Leaf "a";
                                    PinnedModels.Category "G" [PinnedModels.Leaf "a"]];
                          otherSettings := [("theme", VString "dark")] |};
              requests := [] |} in
  snd (unpinModel "t" "a" w) = Finished
  /\ store (fst (unpinModel "t" "a" w))
     = {| pinnedModels := VArray [];
          otherSettings := [("theme", VString "dark")] |}.
Proof.
  intros w.
  destruct (unpinModel_on_typed_tree "t" "a" w
              [PinnedModels.Leaf "a";
               PinnedModels.Category "G" [PinnedModels.Leaf "a"]] eq_refl)
    as (Hfin & _).
  split; [exact Hfin | reflexivity].
Defined.



Lemma reorder_past_end (pinned : list value) oldIndex newIndex :
  (List.length pinned <= oldIndex)%nat ->
  reorder pinned oldIndex newIndex = splice_insert pinned newIndex VUndefined.
Proof.
  intros Hold. unfold reorder, splice_delete_one.
  rewrite (firstn_all2 pinned Hold), (skipn_all2 pinned Hold).
  rewrite skipn_all2 by lia. cbn [firstn hd]. now rewrite app_nil_r.
Qed.

(** X15.  A drag whose [oldIndex] is past the end of the list takes
    nothing out and puts [undefined] in: the handler finishes, the
    stored list is one longer, and from then on every unpin throws and
    changes nothing. *)
Theorem drag_past_end_breaks_unpin
        (token : string) (oldIndex newIndex : nat) (w : World)
        (pinned : list value)
        (Hstore : pinnedModels (store w) = VArray pinned)
        (Hold : (List.length pinned <= oldIndex)%nat) :
  let w1 := fst (onUpdate token oldIndex newIndex w) in
  snd (onUpdate token oldIndex newIndex w) = Finished
  /\ pinnedModels (store w1)
     = VArray (splice_insert pinned newIndex VUndefined)
  /\ List.length (splice_insert pinned newIndex VUndefined)
     = S (List.length pinned)
  /\ forall X, exists e,
       unpinModel token X w1 = (w1, Threw (RemovalThrew e)).
Proof.
  intros w1. subst w1. unfold onUpdate. rewrite Hstore.
  rewrite (reorder_past_end pinned oldIndex newIndex Hold).
  cbn [fst snd set_and_persist store pinnedModels].
  split; [reflexivity |]. split; [reflexivity |]. split.
  - rewrite <- (Permutation_length (splice_insert_perm pinned newIndex VUndefined)).
    reflexivity.
  - intros X. unfold unpinModel.
    cbn [store pinnedModels coalesce nullish].
    assert (Hthrow : returns (removeModelFromTree
                                (VArray (splice_insert pinned newIndex VUndefined)) X)
                     = false).
    { apply (RuntimeLaws.remove_throws_at VUndefined); [| reflexivity].
      unfold splice_insert. apply in_or_app. right. now left. }
    destruct (removeModelFromTree _ X) as [tree|e];
      [discriminate Hthrow | now exists e].
Qed.

Lemma drag_past_end_breaks_unpin_witness :
  let w := {| store := {| pinnedModels := VArray [VString "a"];
                          otherSettings := [] |};
              requests := [] |} in
  pinnedModels (store (fst (onUpdate "t" 3 0 w)))
  = VArray [VUndefined; VString "a"]
  /\ exists e,
       unpinModel "t" "a" (fst (onUpdate "t" 3 0 w))
       = (fst (onUpdate "t" 3 0 w), Threw (RemovalThrew e)).
Proof.
  intros w.
  destruct (drag_past_end_breaks_unpin "t" 3 0 w [VString "a"] eq_refl)
    as (_ & Hs & _ & Hu); [simpl; lia |].
  split; [exact Hs | exact (Hu "a")].
Defined.

Lemma map_splice_insert {A B} (f : A -> B) (l : list A) j x :
  map f (splice_insert l j x) = splice_insert (map f l) j (f x).
Proof.
  unfold splice_insert. now rewrite map_app, firstn_map, skipn_map.
Qed.

Lemma ids_cons item rest :
  PinnedModels.getPinnedModelIds (item :: rest)
  = PinnedModels.getPinnedModelIds [item]
    ++ PinnedModels.getPinnedModelIds rest.
Proof. exact (PinnedModelsFacts.getPinnedModelIds_app [item] rest). Qed.

Lemma ids_perm A B :
  Permutation A B ->
  Permutation (PinnedModels.getPinnedModelIds A)
              (PinnedModels.getPinnedModelIds B).
Proof.
  induction 1 as [| x l l' _ IH | x y l | l l' l'' _ IH1 _ IH2].
  - constructor.
  - rewrite (ids_cons x l), (ids_cons x l'). now apply Permutation_app_head.
  - rewrite (ids_cons y (x :: l)), (ids_cons x l), (ids_cons x (y :: l)),
      (ids_cons y l).
    apply Permutation_app_swap_app.
  - now transitivity (PinnedModels.getPinnedModelIds l').
Qed.

(** X16.  A drag on a well-typed tree, with [oldIndex] inside the list:
    the handler finishes and stores a well-typed tree with the same
    top-level items in another order, hence with the same pinned ids,
    as many of each. *)
Theorem drag_on_typed_tree
        (token : string) (oldIndex newIndex : nat) (w : World)
        (T : list PinnedModels.PinnedItem)
        (Hstore : pinnedModels (store w) = encode T)
        (Hold : (oldIndex < List.length T)%nat) :
  exists T',
    onUpdate token oldIndex newIndex w
    = (set_and_persist token (encode T') w, Finished)
    /\ Permutation T T'
    /\ Permutation (PinnedModels.getPinnedModelIds T)
                   (PinnedModels.getPinnedModelIds T').
Proof.
  destruct (split_at T oldIndex Hold) as (a & x & b & -> & <-).
  exists (splice_insert (a ++ b) newIndex x).
  assert (Hperm : Permutation (a ++ x :: b) (splice_insert (a ++ b) newIndex x)).
  { transitivity (x :: a ++ b);
      [symmetry; apply Permutation_middle | apply splice_insert_perm]. }
  split; [| split; [exact Hperm | now apply ids_perm]].
  unfold onUpdate. rewrite Hstore. unfold encode.
  rewrite map_app. cbn [map].
  rewrite <- (length_map encode_item a), reorder_at.
  now rewrite map_splice_insert, map_app.
Qed.

Lemma drag_on_typed_tree_witness :
  let T := [PinnedModels.Leaf "a";
            PinnedModels.Category "G" [PinnedModels.Leaf "b"]] in
  let w := {| store := {| pinnedModels := encode T; otherSettings := [] |};
              requests := [] |} in
  exists T',
    onUpdate "t" 1 0 w = (set_and_persist "t" (encode T') w, Finished)
    /\ Permutation T T'
    /\ Permutation (PinnedModels.getPinnedModelIds T)
                   (PinnedModels.getPinnedModelIds T').
Proof.
  intros T w. apply (drag_on_typed_tree "t" 1 0 w T eq_refl). simpl. lia.
Defined.

(** *** What the sidebar shows *)












End SidebarFacts.


(** ** More on the worker *)

Module PdfWorkerLaws.
Import PdfWorker PdfWorkerFacts.

#[local] Open Scope Z_scope.

(** The trace of any run: the call to the library, the events of the
    pages that extract fine, then either the done message or the calls
    on the failing page and the error message. *)
Lemma any_run getDocument arrayBuffer :
  exists total pages ending terminal,
    onmessage getDocument arrayBuffer []
    = (CallGetDocument arrayBuffer :: page_events total 1 pages
         ++ ending ++ [Post terminal], Fulfilled tt)
    /\ is_progress terminal = false
    /\ posted ending = []
    /\ NoDup ending
    /\ (forall ev, In ev ending ->
                   exists p, 1 + Z.of_nat (List.length pages) <= p
                             /\ (ev = CallGetPage p \/ ev = CallGetTextContent p)).
Proof.
  destruct (run_dichotomy getDocument arrayBuffer)
    as [(pdf & pages & Hdoc & Hrounds & Hfine) | (before & calls & e & Hfail)].
  - exists (numPages pdf), pages, [], (Done (concat_texts (map page_text pages))).
    split.
    + rewrite (onmessage_prefix _ _ pdf pages 0%nat Hdoc Hfine)
        by (rewrite Hrounds; lia).
      reflexivity.
    + repeat split; [constructor | intros ev []].
  - destruct (failed_run _ _ _ _ _ Hfail) as (total & Hrun & Hposted & Hcalls & Hnd).
    exists total, before, calls, (Error (error_text e)). now repeat split.
Qed.

(** X20.  Whatever the library does, a run posts progress messages for
    pages 1, 2, ... in order, all with the same total, then exactly one
    message that is no progress message (done or error), and nothing
    after it; no event occurs twice in the trace; and the handler itself
    never rejects. *)
Theorem every_run_ends_with_one_terminal_message
        (getDocument : Library) (arrayBuffer : ArrayBuffer) :
  exists total count terminal,
    messages getDocument arrayBuffer
    = map (fun p => Progress p total) (page_numbers 1 count) ++ [terminal]
    /\ is_progress terminal = false
    /\ NoDup (trace getDocument arrayBuffer)
    /\ snd (onmessage getDocument arrayBuffer []) = Fulfilled tt.
Proof.
  destruct (any_run getDocument arrayBuffer)
    as (total & pages & ending & terminal & Hrun & Hterm & Hposted & Hnd & Hending).
  exists total, (List.length pages), terminal.
  unfold messages, trace. rewrite Hrun. cbn [fst snd].
  split; [| split; [exact Hterm | split; [| reflexivity]]].
  - change (CallGetDocument arrayBuffer :: page_events total 1 pages
              ++ ending ++ [Post terminal])
      with ([CallGetDocument arrayBuffer] ++ page_events total 1 pages
              ++ ending ++ [Post terminal]).
    now rewrite !posted_app, posted_page_events, Hposted.
  - constructor.
    + intros Hin. apply in_app_or in Hin. destruct Hin as [Hin | Hin].
      * destruct (page_events_in _ _ _ _ Hin) as (p & _ & [H | [H | H]]);
          discriminate H.
      * apply in_app_or in Hin. destruct Hin as [Hin | [H | []]];
          [| discriminate H].
        destruct (Hending _ Hin) as (p & _ & [H | H]); discriminate H.
    + apply NoDup_app; [apply page_events_NoDup | |].
      * apply NoDup_app; [exact Hnd | repeat constructor; intros [] |].
        intros ev Hin [<- | []].
        destruct (Hending _ Hin) as (p & _ & [H | H]); discriminate H.
      * intros ev Hin Hin'.
        destruct (page_events_in _ _ _ _ Hin) as (p & Hp & Hev).
        apply in_app_or in Hin'. destruct Hin' as [Hin' | [<- | []]].
        -- destruct (Hending _ Hin') as (q & Hq & Hev').
           destruct Hev as [-> | [-> | ->]]; destruct Hev' as [H | H];
             try discriminate H; injection H; lia.
        -- destruct Hev as [H | [H | H]]; try discriminate H.
           injection H as ->. discriminate Hterm.
Qed.

(** The trace of a run whose document parsed. *)
Lemma run_with_document getDocument arrayBuffer pdf :
  getDocument arrayBuffer = Fulfilled pdf ->
  exists pages ending terminal,
    trace getDocument arrayBuffer
    = CallGetDocument arrayBuffer :: page_events (numPages pdf) 1 pages
        ++ ending ++ [Post terminal]
    /\ Z.of_nat (List.length pages) <= Z.max 0 (numPages pdf)
    /\ (ending = []
        \/ (1 + Z.of_nat (List.length pages) <= numPages pdf
            /\ (ending = [CallGetPage (1 + Z.of_nat (List.length pages))]
                \/ ending = [CallGetPage (1 + Z.of_nat (List.length pages));
                             CallGetTextContent
                               (1 + Z.of_nat (List.length pages))]))).
Proof.
  intros Hdoc.
  destruct (run_dichotomy getDocument arrayBuffer)
    as [(pdf' & pages & Hdoc' & Hrounds & Hfine) | (before & calls & e & Hfail)].
  - rewrite Hdoc in Hdoc'. injection Hdoc' as <-.
    exists pages, [], (Done (concat_texts (map page_text pages))).
    unfold trace.
    rewrite (onmessage_prefix _ _ pdf pages 0%nat Hdoc Hfine)
      by (rewrite Hrounds; lia).
    split; [reflexivity |]. split; [unfold rounds in Hrounds; lia | now left].
  - destruct Hfail as [e Hdoc' | pdf' before k calls e Hdoc' Hk Hle Hfine Hpage];
      rewrite Hdoc in Hdoc'; [discriminate Hdoc' | injection Hdoc' as <-].
    exists before, calls, (Error (error_text e)).
    assert (Hrounds : rounds pdf 1
                      = (List.length before + S (Z.to_nat (numPages pdf - k)))%nat)
      by (unfold rounds; lia).
    unfold trace.
    rewrite (onmessage_prefix _ _ pdf before _ Hdoc Hfine Hrounds).
    rewrite <- Hk. unfold try_catch. cbn [pageLoop].
    unfold bind at 1 2. unfold await at 1.
    split; [| split; [lia | right; split; [lia |]]].
    + destruct Hpage as [[Hp ->] | (page & Hp & Hc & ->)]; rewrite Hp.
      * unfold postMessage. cbn [fst]. now rewrite <- app_assoc.
      * unfold bind at 1. unfold await at 1. rewrite Hc.
        unfold postMessage. cbn [fst]. now rewrite <- !app_assoc.
    + destruct Hpage as [[_ ->] | (page & _ & _ & ->)]; [now left | now right].
Qed.

Lemma page_events_pairs total pages :
  forall first p,
    In (CallGetTextContent p) (page_events total first pages) ->
    In (CallGetPage p) (page_events total first pages).
Proof.
  induction pages as [|fragments pages IH]; intros first p Hin;
    [contradiction Hin |].
  cbn [page_events app] in Hin |- *.
  destruct Hin as [H | [H | [H | Hin]]]; try discriminate H.
  - injection H as ->. now left.
  - right; right; right. now apply IH.
Qed.

(** X21.  The worker asks the library only for pages of the document:
    every page number it passes to [getPage] lies between 1 and
    [numPages], and it asks for the text content of a page only if it
    has fetched that page. *)
Theorem worker_asks_only_for_existing_pages
        (getDocument : Library) (arrayBuffer : ArrayBuffer)
        (pdf : PDFDocumentProxy) (p : Z)
        (Hdoc : getDocument arrayBuffer = Fulfilled pdf)
        (Hcall : In (CallGetPage p) (trace getDocument arrayBuffer)
                 \/ In (CallGetTextContent p) (trace getDocument arrayBuffer)) :
  1 <= p <= numPages pdf
  /\ In (CallGetPage p) (trace getDocument arrayBuffer).
Proof.
  destruct (run_with_document _ _ _ Hdoc)
    as (pages & ending & terminal & Htrace & Hlen & Hending).
  rewrite Htrace in *.
  assert (Hsplit : forall ev,
             (ev = CallGetPage p \/ ev = CallGetTextContent p) ->
             In ev (CallGetDocument arrayBuffer
                      :: page_events (numPages pdf) 1 pages
                      ++ ending ++ [Post terminal]) ->
             In ev (page_events (numPages pdf) 1 pages) \/ In ev ending).
  { intros ev Hev [H | Hin]; [destruct Hev as [-> | ->]; discriminate H |].
    apply in_app_or in Hin. destruct Hin as [Hin | Hin]; [now left |].
    apply in_app_or in Hin. destruct Hin as [Hin | [H | []]]; [now right |].
    destruct Hev as [-> | ->]; discriminate H. }
  assert (Hpage : In (CallGetPage p) (page_events (numPages pdf) 1 pages)
                  \/ In (CallGetPage p) ending).
  { destruct Hcall as [Hin | Hin].
    - now apply Hsplit; [left |].
    - destruct (Hsplit _ (or_intror eq_refl) Hin) as [Hin' | Hin'].
      + left. now apply page_events_pairs.
      + right. destruct Hending as [-> | (_ & [-> | ->])];
          [contradiction Hin' | |].
        * destruct Hin' as [H | []]; discriminate H.
        * destruct Hin' as [H | [H | []]]; [discriminate H |].
          injection H as <-. now left. }
  split.
  - destruct Hpage as [Hin | Hin].
    + destruct (page_events_in _ _ _ _ Hin) as (q & Hq & [H | [H | H]]);
        try discriminate H. injection H as ->. lia.
    + destruct Hending as [-> | (Hk & [-> | ->])]; [contradiction Hin | |].
      * destruct Hin as [H | []].
        assert (1 + Z.of_nat (List.length pages) = p) by congruence. lia.
      * destruct Hin as [H | [H | []]]; [| discriminate H].
        assert (1 + Z.of_nat (List.length pages) = p) by congruence. lia.
  - right. apply in_or_app. destruct Hpage as [Hin | Hin]; [now left |].
    right. apply in_or_app. now left.
Qed.

Lemma worker_asks_only_for_existing_pages_witness :
  1 <= 2 <= 3 /\ In (CallGetPage 2) (trace second_page_unreadable []).
Proof.
  apply (worker_asks_only_for_existing_pages second_page_unreadable [] _ 2 eq_refl).
  right. cbn. repeat (first [left; reflexivity | right]).
Defined.

(** X22.  The text of the error message: the [message] of the error
    when it has one, its [name] otherwise; so the text is empty only
    for an error without name and message. *)
Theorem error_text_cases (e : ErrorObject) :
  error_text e = (if String.eqb (message e) "" then name e else message e)
  /\ (error_text e = "" <-> name e = "" /\ message e = "").
Proof.
  unfold error_text, error_to_string.
  destruct (String.eqb_spec (message e) "") as [Hm | Hm];
    destruct (String.eqb_spec (name e) "") as [Hn | Hn]; cbn [negb];
    rewrite ?Hm, ?Hn; split; try reflexivity; try tauto;
    split; intros H; try tauto; try (destruct H; contradiction).
Qed.

End PdfWorkerLaws.
